(** * ReMapper: the animation-curve optimizer and the light-ID remapper

    A shallow embedding of [src/anim_optimizer.ts] and
    [src/light_remapper.ts], and the properties of the specification stated
    over it.

    Numbers.  A JavaScript [number] is modelled by an exact rational [Q]:
    rounding, infinities and signed zeros are outside the model.  The one
    place where the optimizer can meet a non-number without the caller
    supplying one is a read past the end of an array (which gives
    [undefined], and [NaN] as soon as it enters arithmetic); the slope
    computation does such reads on its shared scratch arrays, so the
    scratch arrays hold values of type [num], a rational or [NaN].

    State and errors.  The four module-level scratch arrays [dummyArrays]
    survive between calls, and [areFloatsSimilar] throws; both are threaded
    explicitly through a small state-and-error monad [M].

    Arrays of light IDs.  The remapper's processes are given twice: in
    [LightRemapper] as functions on the values of one event, and in
    [InPlace] on a store of arrays, where an array can be held by several
    events and is rewritten in place as the source does.  The two agree on
    a single run on a single event; [processEvents], which runs over many
    events, is in [InPlace] only. *)

From Stdlib Require Import QArith Qabs Qround Lqa Lia Bool.
From stdpp Require Import base list list_numbers strings sorting.

Open Scope Q_scope.

(* ===================================================================== *)
(** ** JavaScript numbers *)
(* ===================================================================== *)

Inductive num : Type :=
| Num (q : Q)
| NaN.

Definition nsub (a b : num) : num :=
  match a, b with
  | Num x, Num y => Num (x - y)
  | _, _ => NaN
  end.

Definition nmul (a b : num) : num :=
  match a, b with
  | Num x, Num y => Num (x * y)
  | _, _ => NaN
  end.

(** [a / b]; every call site guards the divisor against zero, a zero
    divisor (an infinity in JavaScript) is outside the model. *)
Definition ndiv (a b : num) : num :=
  match a, b with
  | Num x, Num y => if Qeq_bool y 0 then NaN else Num (x / y)
  | _, _ => NaN
  end.

(** [Math.abs] *)
Definition nabs (a : num) : num :=
  match a with
  | Num x => Num (Qabs x)
  | NaN => NaN
  end.

(** [a >= t]: every comparison with [NaN] is false. *)
Definition ngeb (a : num) (t : Q) : bool :=
  match a with
  | Num x => Qle_bool t x
  | NaN => false
  end.

(** [a == 0] *)
Definition nis0 (a : num) : bool :=
  match a with
  | Num x => Qeq_bool x 0
  | NaN => false
  end.

(** [arr[i]] used as a number: [undefined] past the end becomes [NaN]. *)
Definition read (arr : list Q) (i : nat) : num :=
  match arr !! i with
  | Some q => Num q
  | None => NaN
  end.

Definition nread (arr : list num) (i : nat) : num :=
  match arr !! i with
  | Some x => x
  | None => NaN
  end.

(** [arr[i] = v]: overwrites inside the array, extends it otherwise (the
    holes an assignment far past the end leaves read as [undefined]). *)
Definition write (i : nat) (v : num) (arr : list num) : list num :=
  if (i <? length arr)%nat then <[i := v]> arr
  else arr ++ replicate (i - length arr) NaN ++ [v].

(* ===================================================================== *)
(** ** Data model *)
(* ===================================================================== *)

(** [Keyframe] of [./animation]: the optimizer reads these four fields. *)
Record Keyframe : Type := mkKeyframe {
  values : list Q;
  time : Q;
  easing : option string;
  spline : option string
}.

Module Settings.

Record Duplicates : Type := { dup_active : bool }.

Record SimilarPoints : Type := {
  sp_active : bool;
  sp_differenceThreshold : Q;
  sp_timeDifferenceThreshold : Q
}.

Record SimilarPointsSlope : Type := {
  sl_active : bool;
  sl_differenceThreshold : Q;
  sl_timeDifferenceThreshold : Q;
  sl_yInterceptDifferenceThreshold : Q
}.

(** [class OptimizeSettings] *)
Record t : Type := {
  optimize : bool;
  optimizeDuplicates : Duplicates;
  optimizeSimilarPoints : SimilarPoints;
  optimizeSimilarPointsSlope : SimilarPointsSlope
}.

(** [new OptimizeSettings()] *)
Definition default : t := {|
  optimize := true;
  optimizeDuplicates := {| dup_active := true |};
  optimizeSimilarPoints := {|
    sp_active := true;
    sp_differenceThreshold := 1;
    sp_timeDifferenceThreshold := 3 # 100 |};
  optimizeSimilarPointsSlope := {|
    sl_active := true;
    sl_differenceThreshold := 3 # 100;
    sl_timeDifferenceThreshold := 25 # 1000;
    sl_yInterceptDifferenceThreshold := 1 # 2 |}
|}.

End Settings.

(* ===================================================================== *)
(** ** The state-and-error monad *)
(* ===================================================================== *)

(** [const dummyArrays: number[][] = [[], [], [], []]] *)
Record DummyArrays : Type := mkDummy {
  dummy0 : list num;
  dummy1 : list num;
  dummy2 : list num;
  dummy3 : list num
}.

Definition freshDummyArrays : DummyArrays := mkDummy [] [] [] [].

Inductive error : Type :=
| ArraysNotMatching (first second : nat)
    (* [throw new Error(`Arrays are not matching lengths. ...`)] *)
| TypeError
    (* a property read on [undefined] *)
| OutOfFuel.
    (* the loop bound of the model was too small; never happens, see
       [interior_scan_guarded] *)

Inductive outcome (A : Type) : Type :=
| Done (a : A) (d : DummyArrays)
| Raise (e : error) (d : DummyArrays).
Arguments Done {A} a d.
Arguments Raise {A} e d.

Definition M (A : Type) : Type := DummyArrays -> outcome A.

Definition ret {A} (a : A) : M A := fun d => Done a d.

Definition throw {A} (e : error) : M A := fun d => Raise e d.

Definition bind {A B} (m : M A) (k : A -> M B) : M B :=
  fun d =>
    match m d with
    | Done a d' => k a d'
    | Raise e d' => Raise e d'
    end.

Definition getDummy : M DummyArrays := fun d => Done d d.
Definition putDummy (d' : DummyArrays) : M unit := fun _ => Done tt d'.

Notation "'let*' x ':=' m 'in' k" := (bind m (fun x => k))
  (at level 10, x name, m at level 100, k at level 200).

(** [a && b] whose operands may throw: [b] is evaluated only when [a]
    holds. *)
Definition andM (a b : M bool) : M bool :=
  let* x := a in if x then b else ret false.

(* ===================================================================== *)
(** ** [namespace OptimizeMath] *)
(* ===================================================================== *)

Module OptimizeMath.

Fixpoint identical_from (enumerable1 enumerable2 : list Q) : bool :=
  match enumerable1, enumerable2 with
  | element1 :: rest1, element2 :: rest2 =>
      if negb (Qeq_bool element1 element2) then false
      else identical_from rest1 rest2
  | _, _ => true
  end.

Definition areArrayElementsIdentical (enumerable1 enumerable2 : list Q)
  : bool :=
  if negb (length enumerable1 =? length enumerable2)%nat then false
  else identical_from enumerable1 enumerable2.

(** the [for] loop of [areFloatsSimilar], over arrays of one length.
    [Math.abs(element1 - element2)] is the exact difference here; on doubles
    it is the rounded one, which can reach the threshold when the exact
    difference is below it.  A statement that reads the verdict off the
    exact difference holds in exact arithmetic, and says so. *)
Fixpoint similar_from (enumerable1 enumerable2 : list num) (threshold : Q)
  : bool :=
  match enumerable1, enumerable2 with
  | element1 :: rest1, element2 :: rest2 =>
      if ngeb (nabs (nsub element1 element2)) threshold then false
      else similar_from rest1 rest2 threshold
  | _, _ => true
  end.

Definition areFloatsSimilar (enumerable1 enumerable2 : list num)
    (threshold : Q) : M bool :=
  if negb (length enumerable1 =? length enumerable2)%nat
  then throw (ArraysNotMatching (length enumerable1) (length enumerable2))
  else ret (similar_from enumerable1 enumerable2 threshold).

Definition arePointSimilar (a b : Keyframe)
    (differenceThreshold timeDifferenceThreshold : Q) : M bool :=
  andM (areFloatsSimilar (Num <$> values a) (Num <$> values b)
          differenceThreshold)
       (ret (Qle_bool (Qabs (time a - time b)) timeDifferenceThreshold)).

Definition SlopeOfPoint (a b : Keyframe) (slopes : list num) : list num :=
  let yDiff := time b - time a in
  fold_left
    (fun slopes i =>
       let xDiff := nsub (read (values b) i) (read (values a) i) in
       if nis0 xDiff || Qeq_bool yDiff 0
       then write i (Num 0) slopes
       else write i (ndiv (Num yDiff) xDiff) slopes)
    (seq 0 (length (values b))) slopes.

Definition GetYIntercept (pointData : Keyframe) (slopeArray : list num)
    (yIntercepts : list num) : list num :=
  fold_left
    (fun yIntercepts i =>
       let slope := nread slopeArray i in
       let x := read (values pointData) i in
       let y := Num (time pointData) in
       let yIntercept := nsub y (nmul slope x) in
       write i yIntercept yIntercepts)
    (seq 0 (length slopeArray)) yIntercepts.

Record SlopeResult : Type := { similar : bool; skip : bool }.

(** The four scratch arrays are the four components of the state: the
    only caller passes [dummyArrays[0..3]] for [middleSlope], [endSlope],
    [middleYIntercepts] and [endYIntercepts]. *)
Definition ComparePointsSlope (startPoint middlePoint endPoint : Keyframe)
    (timeDifferenceThreshold differenceThreshold
       yInterceptDifferenceThreshold : Q) : M SlopeResult :=
  if Qle_bool (Qabs (time startPoint - time endPoint))
       timeDifferenceThreshold
     || Qle_bool (Qabs (time startPoint - time middlePoint))
          timeDifferenceThreshold
     || Qle_bool (Qabs (time middlePoint - time endPoint))
          timeDifferenceThreshold
  then ret {| skip := true; similar := false |}
  else if negb (bool_decide (easing endPoint = easing middlePoint))
          || negb (bool_decide (spline endPoint = spline middlePoint))
  then ret {| skip := true; similar := false |}
  else
    let* pause :=
      andM (ret (negb (Qle_bool (Qabs (time endPoint - time middlePoint))
                         differenceThreshold)))
           (areFloatsSimilar (Num <$> values endPoint)
              (Num <$> values middlePoint) differenceThreshold) in
    if pause then ret {| skip := true; similar := false |}
    else
      let* d := getDummy in
      let endSlope := SlopeOfPoint startPoint endPoint (dummy1 d) in
      let middleSlope := SlopeOfPoint startPoint middlePoint (dummy0 d) in
      let middleYIntercepts :=
        GetYIntercept middlePoint middleSlope (dummy2 d) in
      let endYIntercepts := GetYIntercept endPoint endSlope (dummy3 d) in
      let* _ := putDummy (mkDummy middleSlope endSlope
                            middleYIntercepts endYIntercepts) in
      let* similar :=
        andM (areFloatsSimilar middleYIntercepts endYIntercepts
                yInterceptDifferenceThreshold)
             (areFloatsSimilar middleSlope endSlope differenceThreshold) in
      ret {| skip := false; similar := similar |}.

End OptimizeMath.

(* ===================================================================== *)
(** ** The three predicate families *)
(* ===================================================================== *)

(** Each returns the point it reports as redundant, or [None] for the
    source's [undefined]. *)

Definition optimizeDuplicates (pointA pointB : Keyframe)
    (pointC : option Keyframe) : option Keyframe :=
  match pointC with
  | None =>
      if OptimizeMath.areArrayElementsIdentical (values pointA) (values pointB)
      then Some pointA else None
  | Some pointC =>
      let middlePointUnnecessary :=
        OptimizeMath.areArrayElementsIdentical (values pointA) (values pointB)
        && OptimizeMath.areArrayElementsIdentical (values pointB)
             (values pointC) in
      if middlePointUnnecessary then Some pointB else None
  end.

Definition optimizeSimilarPoints (pointA pointB : Keyframe)
    (pointC : option Keyframe)
    (differenceThreshold timeDifferenceThreshold : Q)
    : M (option Keyframe) :=
  if negb (bool_decide (easing pointA = easing pointB))
     || negb (bool_decide (spline pointA = spline pointB))
     || match pointC with
        | Some pointC =>
            negb (bool_decide (spline pointB = spline pointC))
            || negb (bool_decide (easing pointB = easing pointC))
        | None => false
        end
  then ret None
  else
    match pointC with
    | None =>
        let* s := OptimizeMath.arePointSimilar pointA pointB
                    differenceThreshold timeDifferenceThreshold in
        ret (if s then Some pointA else None)
    | Some pointC =>
        let* middlePointUnnecessary :=
          andM (OptimizeMath.arePointSimilar pointA pointB
                  differenceThreshold timeDifferenceThreshold)
               (OptimizeMath.arePointSimilar pointB pointC
                  differenceThreshold timeDifferenceThreshold) in
        ret (if middlePointUnnecessary then Some pointB else None)
    end.

Definition optimizeSimilarPointsSlope (pointA pointB : Keyframe)
    (pointC : option Keyframe)
    (differenceThreshold timeDifferenceThreshold
       yInterceptDifferenceThreshold : Q) : M (option Keyframe) :=
  match pointC with
  | None => ret None
  | Some pointC =>
      if negb (bool_decide (easing pointA = easing pointB))
         || negb (bool_decide (spline pointA = spline pointB))
         || negb (bool_decide (spline pointB = spline pointC))
         || negb (bool_decide (easing pointB = easing pointC))
      then ret None
      else
        let* middlePointUnnecessary :=
          OptimizeMath.ComparePointsSlope pointA pointB pointC
            timeDifferenceThreshold differenceThreshold
            yInterceptDifferenceThreshold in
        ret (if OptimizeMath.similar middlePointUnnecessary
             then Some pointB else None)
  end.

(* ===================================================================== *)
(** ** [optimizePoints] *)
(* ===================================================================== *)

(** [points.sort((a, b) => a.time - b.time)]: the array sort is stable, a
    keyframe moves in front of another only when its time is strictly
    smaller. *)
Fixpoint insert_by_time (a : Keyframe) (points : list Keyframe)
  : list Keyframe :=
  match points with
  | [] => [a]
  | b :: rest =>
      if Qle_bool (time a) (time b) then a :: points
      else b :: insert_by_time a rest
  end.

Fixpoint sort_by_time (points : list Keyframe) : list Keyframe :=
  match points with
  | [] => []
  | a :: rest => insert_by_time a (sort_by_time rest)
  end.

(** [x === undefined] *)
Definition isUndefined {A} (x : option A) : bool :=
  match x with
  | None => true
  | Some _ => false
  end.

(** What [optimizePoints] hands back: the array, or nothing at all (the
    bare [return;]). *)
Inductive returned : Type :=
| Points (points : list Keyframe)
| Undefined.

Section Optimizer.

Variable settings : Settings.t.

(** the closure [processPoints]: the three tests run one after the
    other, none is skipped because an earlier one already failed *)
Definition processPoints (pointA pointB : Keyframe)
    (pointC : option Keyframe) : M bool :=
  let pointPassed := true in
  let pointPassed :=
    if Settings.dup_active (Settings.optimizeDuplicates settings)
       && isUndefined (optimizeDuplicates pointA pointB pointC)
    then false else pointPassed in
  let* pointPassed :=
    if Settings.sp_active (Settings.optimizeSimilarPoints settings)
    then
      let* r := optimizeSimilarPoints pointA pointB pointC
                  (Settings.sp_differenceThreshold
                     (Settings.optimizeSimilarPoints settings))
                  (Settings.sp_timeDifferenceThreshold
                     (Settings.optimizeSimilarPoints settings)) in
      ret (if isUndefined r then false else pointPassed)
    else ret pointPassed in
  let* pointPassed :=
    if Settings.sl_active (Settings.optimizeSimilarPointsSlope settings)
    then
      let* r := optimizeSimilarPointsSlope pointA pointB pointC
                  (Settings.sp_differenceThreshold
                     (Settings.optimizeSimilarPoints settings))
                  (Settings.sp_timeDifferenceThreshold
                     (Settings.optimizeSimilarPoints settings))
                  (Settings.sl_yInterceptDifferenceThreshold
                     (Settings.optimizeSimilarPointsSlope settings)) in
      ret (if isUndefined r then false else pointPassed)
    else ret pointPassed in
  ret pointPassed.

(** The inner [for (let i = 1; i < points.length - 1; i++)].  One unit
    of fuel is one evaluation of the loop condition, and every iteration
    either advances [i] or shortens [points], so [length points + 1] units
    are always enough.  [i] is at least 1 throughout, so the truncated
    subtraction on [nat] agrees with the source's. *)
Fixpoint interior_scan (fuel : nat) (i : nat) (points : list Keyframe)
  : M (list Keyframe) :=
  match fuel with
  | O => throw OutOfFuel
  | S fuel =>
      if (i <? length points - 1)%nat then
        match points !! (i - 1)%nat, points !! i, points !! (i + 1)%nat with
        | Some pointA, Some pointB, Some pointC =>
            let* passed := processPoints pointA pointB (Some pointC) in
            if negb passed
            then (* [points.splice(i, 1); i--;] and then [i++] *)
                 interior_scan fuel i (delete i points)
            else interior_scan fuel (i + 1) points
        | _, _, _ => throw TypeError
        end
      else ret points
  end.

(** the body of [for (let pass = 0; pass < passes; pass++)] *)
Definition one_pass (points : list Keyframe) : M (list Keyframe) :=
  let* points :=
    match points with
    | [point0; point1] =>
        let* passed := processPoints point0 point1 None in
        if negb passed then ret (delete 1%nat points) else ret points
    | _ => ret points
    end in
  interior_scan (S (length points)) 1 points.

Fixpoint pass_loop (passes : nat) (points : list Keyframe)
  : M (list Keyframe) :=
  match passes with
  | O => ret points
  | S passes =>
      let* points := one_pass points in
      pass_loop passes points
  end.

Definition optimizePoints (points : list Keyframe) (passes : nat)
  : M returned :=
  if negb (Settings.optimize settings) then ret (Points points)
  else
    let points := sort_by_time points in
    if (length points <? 2)%nat then ret Undefined
    else
      let* points := pass_loop passes points in
      ret (Points points).

End Optimizer.

(* ===================================================================== *)
(** ** The light remapper *)
(* ===================================================================== *)

(** [type LightID = number | number[]] *)
Inductive LightID : Type :=
| Scalar (id : Q)
| Sequence (ids : list Q).

(** The fields of [EventInternals.AbstractEvent] the remapper touches;
    [None] is an absent ([undefined]) field. *)
Record AbstractEvent : Type := mkEvent {
  type : Q;
  color : option (list Q);
  lightID : option LightID
}.

(** The field [type], under a name of its own (the remapper has a
    condition called [type] too). *)
Definition AbstractEvent_type (x : AbstractEvent) : Q := type x.

Definition set_lightID (l : LightID) (x : AbstractEvent) : AbstractEvent :=
  {| type := type x; color := color x; lightID := Some l |}.

Definition set_type (t : Q) (x : AbstractEvent) : AbstractEvent :=
  {| type := t; color := color x; lightID := lightID x |}.

(** [if (x.lightID)]: an absent field and the bare number [0] are falsy,
    every array (the empty one too) is truthy. *)
Definition truthy (l : option LightID) : bool :=
  match l with
  | None => false
  | Some (Scalar id) => negb (Qeq_bool id 0)
  | Some (Sequence _) => true
  end.

(** [if (step)] on an optional number *)
Definition truthy_number (n : option Q) : bool :=
  match n with
  | None => false
  | Some q => negb (Qeq_bool q 0)
  end.

(** A breakpoint table entry [[start, step]]. *)
Definition change : Type := (Q * Q)%type.

(** the [while (true)] of [solve]; [currentChange :: rest] is what is left
    of [changes] from [currentIndex] on.  A division by a rate of 0 (an
    infinity in JavaScript) is outside the model. *)
Fixpoint solve_loop (output inputMapped : Q) (lastChange : option change)
    (currentChange : change) (rest : list change) : Q :=
  let lastInputMapped := inputMapped in
  let inputMapped :=
    match lastChange with
    | None => inputMapped + fst currentChange
    | Some lastChange =>
        inputMapped + snd lastChange * (fst currentChange - fst lastChange)
    end in
  if negb (Qle_bool inputMapped output) then
    match lastChange with
    | None => output
    | Some lastChange =>
        fst lastChange + (output - lastInputMapped) / snd lastChange
    end
  else
    match rest with
    | [] => fst currentChange + (output - inputMapped) / snd currentChange
    | nextChange :: rest =>
        solve_loop output inputMapped (Some currentChange) nextChange rest
    end.

Definition solve (output : Q) (changes : list change) : Q :=
  match changes with
  | [] => output
  | currentChange :: rest => solve_loop output 0 None currentChange rest
  end.

Definition solveLightMap (map : list change) (ids : list Q) : list Q :=
  (fun id => solve id map) <$> ids.

(** the [while (true)] of [apply] *)
Fixpoint apply_loop (input output : Q) (lastChange : option change)
    (currentChange : change) (rest : list change) : Q :=
  if Qle_bool (fst currentChange) input then
    let output :=
      match lastChange with
      | None => output + fst currentChange
      | Some lastChange =>
          output + snd lastChange * (fst currentChange - fst lastChange)
      end in
    match rest with
    | [] => output + snd currentChange * (input - fst currentChange)
    | nextChange :: rest =>
        apply_loop input output (Some currentChange) nextChange rest
    end
  else
    match lastChange with
    | None => input
    | Some lastChange =>
        output + snd lastChange * (input - fst lastChange)
    end.

Definition apply (input : Q) (changes : list change) : Q :=
  match changes with
  | [] => input
  | currentChange :: rest => apply_loop input 0 None currentChange rest
  end.

(** The source receives [[offset, ...map]] in one array and splits the
    head off again ([map.splice(0, 1)[0]]); the two parts are separate
    arguments here. *)
Definition applyLightMap (offset : Q) (map : list change) (ids : list Q)
  : list Q :=
  (fun id => apply id map + offset) <$> ids.

(** [isInID]; [stop] is the source's parameter [end]. *)
Definition isInID (current : option LightID) (start stop : Q) : bool :=
  match current with
  | None => false
  | Some (Sequence ids) =>
      let passed :=
        existsb (fun z => Qle_bool start z && Qle_bool z stop) ids in
      if passed then true else false
  | Some (Scalar id) =>
      if Qle_bool start id && Qle_bool id stop then true else false
  end.

(** the [for (let i = lightID[0]; i <= lightID[1]; i++) output.push(i)]
    of [initIDs]; the fuel bounds the number of pushes *)
Fixpoint spread_loop (fuel : nat) (i stop : Q) : list Q :=
  match fuel with
  | O => []
  | S fuel =>
      if Qle_bool i stop then i :: spread_loop fuel (i + 1) stop else []
  end.

(** as many units as the loop can use: it pushes [floor (stop - start) + 1]
    numbers when [start <= stop] and none otherwise
    ([spread_loop_enough]) *)
Definition spread_fuel (start stop : Q) : nat :=
  Z.to_nat (Qfloor (stop - start) + 1).

(** The conditions and processes of [class LightRemapper], each as a
    function on the values of the one event it is run on: the light IDs of
    the event before, and right after, that one run.  An array is a value
    here.  In the source it is an object that several events can hold and
    that some processes rewrite in place; the module [InPlace] further down
    has the arrays in a store, and with them [processEvents], [setIDs] and
    the builder, which run over many events. *)
Module LightRemapper.

Definition Condition : Type := AbstractEvent -> bool.
Definition Process : Type := AbstractEvent -> AbstractEvent.

(** [typeof lightID === "number" ? [lightID] : lightID] *)
Definition promote (current : LightID) : list Q :=
  match current with
  | Scalar id => [id]
  | Sequence ids => ids
  end.

(** [ids.length === 1 ? ids[0] : ids] *)
Definition demote (ids : list Q) : LightID :=
  match ids with
  | [id] => Scalar id
  | _ => Sequence ids
  end.

Definition complexifyLightIDs (current : LightID)
    (callback : list Q -> list Q) : LightID :=
  let ids := promote current in
  let ids := callback ids in
  demote ids.

(** [appended] is the source's parameter [lightID].  The callback of the
    outer helper call writes [x.lightID]; what the outer call returns is
    dropped. *)
Definition appendIDs (appended : LightID) (initialize : bool) : Process :=
  fun x =>
    let start :=
      if negb (truthy (lightID x))
      then if initialize then Some (Sequence []) else None
      else lightID x in
    match start with
    | None => x
    | Some current =>
        let ids1 := promote appended in
        set_lightID
          (complexifyLightIDs current (fun ids2 => ids2 ++ ids1)) x
    end.

Definition normalizeLinear (step start : Q) : Process :=
  fun x =>
    match lightID x with
    | Some current =>
        if truthy (Some current)
        then set_lightID
               (complexifyLightIDs current
                  (fun ids => solveLightMap [(start, step)] ids)) x
        else x
    | None => x
    end.

Definition normalizeWithChanges (map : list change) : Process :=
  fun x =>
    match lightID x with
    | Some current =>
        if truthy (Some current)
        then set_lightID
               (complexifyLightIDs current
                  (fun ids => solveLightMap map ids)) x
        else x
    | None => x
    end.

Definition addToEnd (offset : Q) (step : option Q) : Process :=
  fun x =>
    match lightID x with
    | Some current =>
        if truthy (Some current)
        then set_lightID
               (complexifyLightIDs current
                  (fun ids =>
                     (fun i =>
                        let i :=
                          match step with
                          | Some s =>
                              if truthy_number step then (i - 1) * s + 1
                              else i
                          | None => i
                          end in
                        i + offset) <$> ids)) x
        else x
    | None => x
    end.

Definition remapEnd (map : list change) (offset : Q) : Process :=
  fun x =>
    match lightID x with
    | Some current =>
        if truthy (Some current)
        then set_lightID
               (complexifyLightIDs current
                  (fun ids => applyLightMap offset map ids)) x
        else x
    | None => x
    end.

(** The argument of [range]: one number, or a pair [[min, max]]. *)
Inductive Range : Type :=
| Single (n : Q)
| Between (min max : Q).

(** [range]: a single number stands for both ends. *)
Definition range (r : Range) : Condition :=
  fun x =>
    let '(min, max) :=
      match r with
      | Single n => (n, n)
      | Between min max => (min, max)
      end in
    isInID (lightID x) min max.

(** [IDs]; [arrHas] of [./general.ts] is not among the sources and is a
    parameter.  An array argument, the empty one too, is truthy. *)
Definition IDs (arrHas : list Q -> Q -> bool) (lightIDs : option (list Q))
  : Condition :=
  fun x =>
    match lightID x with
    | Some current =>
        if truthy (Some current) then
          match lightIDs with
          | Some lightIDs =>
              let passed :=
                if existsb (fun i => arrHas lightIDs i) (promote current)
                then true else false in
              passed
          | None => true
          end
        else false
    | None => false
    end.

Definition setType (t : Q) : Process := fun x => set_type t x.

(** [initIDs]; [initial] is the source's parameter [lightID], by its
    contents at the time of the run.  This is one run on one event; that
    every event is given the same array is in [InPlace.initIDs]. *)
Definition initIDs (initial : LightID) (spread : bool) : Process :=
  fun x =>
    let output :=
      match initial with
      | Sequence [start; stop] =>
          if spread
          then Sequence (spread_loop (spread_fuel start stop) start stop)
          else initial
      | _ => initial
      end in
    if negb (truthy (lightID x)) then set_lightID output x else x.

(** The condition [type]: [x.type === type]. *)
Definition type (t : Q) : Condition :=
  fun x => Qeq_bool (AbstractEvent_type x) t.

End LightRemapper.

(* ===================================================================== *)
(** ** The remapper on shared arrays *)
(* ===================================================================== *)

(** [LightRemapper] above describes each process by what it does to the
    values of the one event it runs on.  In the source an array of light IDs
    is an object: [solveLightMap] and [applyLightMap] rewrite it in place,
    and [setIDs] and [initIDs] hand the one array they were given to every
    event.  Here the arrays live in a store, an event (or an argument of
    the remapper) holds a bare number or the address of an array, and a
    process takes and returns the store.  [processEvents] belongs here: it
    runs the processes on one event after the other, on one store. *)
Module InPlace.

(** The arrays allocated so far, by address. *)
Abbreviation Store := (list (list Q)) (only parsing).

(** [type LightID = number | number[]], the array by reference. *)
Inductive Held : Type :=
| Number (id : Q)
| Array (ids : nat).

(** An event, with the light IDs as it holds them.  The accessor
    [lightID] of [./event.ts] is taken to store and return what it is given,
    without copying. *)
Record StoredEvent : Type := mkStored {
  stored_type : Q;
  stored_color : option (list Q);
  stored_lightID : option Held
}.

(** a new array: [[...]], [ids.map(...)], [ids2.concat(ids1)] *)
Definition alloc (ids : list Q) (s : Store) : nat * Store :=
  (length s, s ++ [ids]).

(** The contents of the array at an address (every address a program holds
    is allocated; for any other the model reads an empty array). *)
Definition read (s : Store) (ids : nat) : list Q := default [] (s !! ids).

(** the array at [ids] after [ids[i] = ...] for every [i] *)
Definition overwrite (ids : nat) (contents : list Q) (s : Store) : Store :=
  <[ids := contents]> s.

Definition set_lightID (l : Held) (x : StoredEvent) : StoredEvent :=
  {| stored_type := stored_type x; stored_color := stored_color x;
     stored_lightID := Some l |}.

(** [if (x.lightID)] *)
Definition truthy (l : option Held) : bool :=
  match l with
  | None => false
  | Some (Number id) => negb (Qeq_bool id 0)
  | Some (Array _) => true
  end.

(** [type Condition], [type Process]; a process writes to the event and
    to the arrays. *)
Definition Condition : Type := StoredEvent -> Store -> bool.
Definition Process : Type := StoredEvent -> Store -> StoredEvent * Store.

(** [BaseLightRemapper] *)
Record t : Type := {
  conditions : list Condition;
  processes : list Process
}.

Definition empty : t := {| conditions := []; processes := [] |}.


Definition addProcess (process : Process) (r : t) : t :=
  {| conditions := conditions r; processes := processes r ++ [process] |}.

(** [this.processes.forEach(p => { p(x) })] *)
Definition run_processes (ps : list Process) (x : StoredEvent) (s : Store)
  : StoredEvent * Store :=
  fold_left (fun xs p => p (fst xs) (snd xs)) ps (x, s).

(** [processEvents]: the events are distinct objects, taken in order; what
    an earlier event's processes wrote into an array is what a later event
    finds there. *)
Fixpoint processEvents (r : t) (events : list StoredEvent) (s : Store)
  : list StoredEvent * Store :=
  match events with
  | [] => ([], s)
  | x :: events =>
      let passed := forallb (fun p => p x s) (conditions r) in
      let '(x, s) :=
        if negb passed then (x, s) else run_processes (processes r) x s in
      let '(events, s) := processEvents r events s in
      (x :: events, s)
  end.

(** [complexifyLightIDs]: a bare number is wrapped in a new array, an array
    is passed to the callback as it is; the callback returns the address of
    the array it produced. *)
Definition complexifyLightIDs (current : Held)
    (callback : nat -> Store -> nat * Store) (s : Store) : Held * Store :=
  let '(ids, s) :=
    match current with
    | Number id => alloc [id] s
    | Array ids => (ids, s)
    end in
  let '(ids, s) := callback ids s in
  match read s ids with
  | [id] => (Number id, s)
  | _ => (Array ids, s)
  end.

(** [solveLightMap]: [ids[i] = solve(ids[i], map)], and [return ids] *)
Definition solveLightMap (map : list change) (ids : nat) (s : Store)
  : nat * Store :=
  (ids, overwrite ids ((fun id => solve id map) <$> read s ids) s).

(** [applyLightMap]: [ids[i] = apply(ids[i], map) + offset] *)
Definition applyLightMap (offset : Q) (map : list change) (ids : nat)
    (s : Store) : Store :=
  overwrite ids ((fun id => apply id map + offset) <$> read s ids) s.

Definition normalizeLinear (step start : Q) : Process :=
  fun x s =>
    match stored_lightID x with
    | Some current =>
        if truthy (Some current)
        then let '(l, s) :=
               complexifyLightIDs current
                 (fun ids => solveLightMap [(start, step)] ids) s in
             (set_lightID l x, s)
        else (x, s)
    | None => (x, s)
    end.

Definition normalizeWithChanges (map : list change) : Process :=
  fun x s =>
    match stored_lightID x with
    | Some current =>
        if truthy (Some current)
        then let '(l, s) :=
               complexifyLightIDs current
                 (fun ids => solveLightMap map ids) s in
             (set_lightID l x, s)
        else (x, s)
    | None => (x, s)
    end.

(** [ids.map(...)] makes a new array *)
Definition addToEnd (offset : Q) (step : option Q) : Process :=
  fun x s =>
    match stored_lightID x with
    | Some current =>
        if truthy (Some current)
        then let '(l, s) :=
               complexifyLightIDs current
                 (fun ids s =>
                    alloc
                      ((fun i =>
                          let i :=
                            match step with
                            | Some st =>
                                if truthy_number step then (i - 1) * st + 1
                                else i
                            | None => i
                            end in
                          i + offset) <$> read s ids) s) s in
             (set_lightID l x, s)
        else (x, s)
    | None => (x, s)
    end.

Definition remapEnd (map : list change) (offset : Q) : Process :=
  fun x s =>
    match stored_lightID x with
    | Some current =>
        if truthy (Some current)
        then let '(l, s) :=
               complexifyLightIDs current
                 (fun ids s => (ids, applyLightMap offset map ids s)) s in
             (set_lightID l x, s)
        else (x, s)
    | None => (x, s)
    end.

(** [appendIDs]; [appended] is the source's parameter [lightID].  The outer
    helper call wraps a bare [appended] in a new array [ids1]; its callback
    writes [x.lightID], and what the outer call returns is dropped.
    [ids2.concat(ids1)] makes a new array. *)
Definition appendIDs (appended : Held) (initialize : bool) : Process :=
  fun x s =>
    let '(start, s) :=
      if negb (truthy (stored_lightID x))
      then if initialize
           then let '(ids, s) := alloc [] s in (Some (Array ids), s)
           else (None, s)
      else (stored_lightID x, s) in
    match start with
    | None => (x, s)
    | Some current =>
        let '(ids1, s) :=
          match appended with
          | Number id => alloc [id] s
          | Array ids => (ids, s)
          end in
        let '(l, s) :=
          complexifyLightIDs current
            (fun ids2 s => alloc (read s ids2 ++ read s ids1) s) s in
        (set_lightID l x, s)
    end.


(** [initIDs]; [initial] is the source's parameter [lightID].  [output]
    starts as a new empty array on every run; it is filled when [spread]
    applies, and is the argument itself otherwise. *)
Definition initIDs (initial : Held) (spread : bool) : Process :=
  fun x s =>
    let '(fresh, s) := alloc [] s in
    let '(output, s) :=
      match initial with
      | Array ids =>
          match read s ids with
          | [start; stop] =>
              if spread
              then (Array fresh,
                    overwrite fresh
                      (spread_loop (spread_fuel start stop) start stop) s)
              else (initial, s)
          | _ => (initial, s)
          end
      | Number _ => (initial, s)
      end in
    if negb (truthy (stored_lightID x))
    then (set_lightID output x, s)
    else (x, s).

(** What an event, or an argument, holds, read through the store. *)
Definition view_ids (s : Store) (l : Held) : LightID :=
  match l with
  | Number id => Scalar id
  | Array ids => Sequence (read s ids)
  end.

Definition view (s : Store) (x : StoredEvent) : AbstractEvent :=
  {| type := stored_type x; color := stored_color x;
     lightID := view_ids s <$> stored_lightID x |}.


(** An address that is held is allocated. *)
Definition allocated (s : Store) (l : Held) : Prop :=
  match l with
  | Number _ => True
  | Array ids => (ids < length s)%nat
  end.

End InPlace.

(* ===================================================================== *)
(** ** Notions used in the statements *)
(* ===================================================================== *)

(** A keyframe without easing or spline: [[...values, time]]. *)
Definition keyframe (vs : list Q) (t : Q) : Keyframe :=
  mkKeyframe vs t None None.

(** The default thresholds with a chosen set of active families. *)
Definition withActive (duplicates similarPoints slope : bool) : Settings.t := {|
  Settings.optimize := true;
  Settings.optimizeDuplicates := {| Settings.dup_active := duplicates |};
  Settings.optimizeSimilarPoints := {|
    Settings.sp_active := similarPoints;
    Settings.sp_differenceThreshold := 1;
    Settings.sp_timeDifferenceThreshold := 3 # 100 |};
  Settings.optimizeSimilarPointsSlope := {|
    Settings.sl_active := slope;
    Settings.sl_differenceThreshold := 3 # 100;
    Settings.sl_timeDifferenceThreshold := 25 # 1000;
    Settings.sl_yInterceptDifferenceThreshold := 1 # 2 |}
|}.

(** Only [optimizeDuplicates.active] is set. *)
Definition onlyDuplicates : Settings.t := withActive true false false.

(** [optimizeDuplicates.active] and [optimizeSimilarPointsSlope.active]. *)
Definition duplicatesAndSlope : Settings.t := withActive true false true.

(** The array the passes work on: [optimizePoints] sorts it, unless the
    master switch is off. *)
Definition working (settings : Settings.t) (points : list Keyframe)
  : list Keyframe :=
  if Settings.optimize settings then sort_by_time points else points.

(** Ordered by time. *)
Definition by_time (a b : Keyframe) : Prop := time a <= time b.

(** Arity: the number of value channels of a keyframe. *)
Definition same_arity (a b : Keyframe) : Prop :=
  length (values a) = length (values b).

Definition arity_ok (pointA pointB : Keyframe) (pointC : option Keyframe)
  : Prop :=
  same_arity pointA pointB
  /\ match pointC with
     | Some pointC => same_arity pointB pointC
     | None => True
     end.

Definition uniform_arity (points : list Keyframe) : Prop :=
  forall a b, a ∈ points -> b ∈ points -> same_arity a b.

(** The four scratch arrays have one length. *)
Definition balanced (d : DummyArrays) : Prop :=
  length (dummy0 d) = length (dummy1 d)
  /\ length (dummy0 d) = length (dummy2 d)
  /\ length (dummy0 d) = length (dummy3 d).

(** The only error the optimizer raises. *)
Definition mismatch (e : error) : Prop :=
  exists n m, e = ArraysNotMatching n m /\ n <> m.

(** An outcome is either a result that satisfies [P], or the arity error,
    and that only when the well-formedness condition [W] fails. *)
Definition guarded {A} (W : Prop) (P : A -> DummyArrays -> Prop)
    (o : outcome A) : Prop :=
  match o with
  | Done a d' => P a d'
  | Raise e _ => mismatch e /\ ~ W
  end.

(** Breakpoints strictly increasing along the table. *)
Fixpoint increasing_from (breakpoint : Q) (rest : list change) : Prop :=
  match rest with
  | [] => True
  | c :: rest => breakpoint < fst c /\ increasing_from (fst c) rest
  end.

Definition increasing (changes : list change) : Prop :=
  match changes with
  | [] => True
  | c :: rest => increasing_from (fst c) rest
  end.

(** The value [inputMapped] has reached at the last breakpoint of the
    table, accumulated as [solve] does. *)
Fixpoint coverage_from (inputMapped : Q) (lastChange : change)
    (rest : list change) : Q :=
  match rest with
  | [] => inputMapped
  | c :: rest =>
      coverage_from (inputMapped + snd lastChange * (fst c - fst lastChange))
        c rest
  end.

Fixpoint last_change (c : change) (rest : list change) : change :=
  match rest with
  | [] => c
  | c' :: rest => last_change c' rest
  end.

(** The settings with the slope family's own two thresholds replaced. *)
Definition withSlopeThresholds (settings : Settings.t)
    (differenceThreshold timeDifferenceThreshold : Q) : Settings.t := {|
  Settings.optimize := Settings.optimize settings;
  Settings.optimizeDuplicates := Settings.optimizeDuplicates settings;
  Settings.optimizeSimilarPoints := Settings.optimizeSimilarPoints settings;
  Settings.optimizeSimilarPointsSlope := {|
    Settings.sl_active :=
      Settings.sl_active (Settings.optimizeSimilarPointsSlope settings);
    Settings.sl_differenceThreshold := differenceThreshold;
    Settings.sl_timeDifferenceThreshold := timeDifferenceThreshold;
    Settings.sl_yInterceptDifferenceThreshold :=
      Settings.sl_yInterceptDifferenceThreshold
        (Settings.optimizeSimilarPointsSlope settings) |}
|}.

(** Every rate of the table is positive. *)
Definition positive_rates (changes : list change) : Prop :=
  Forall (fun c => 0 < snd c) changes.

(** No family is active. *)
Definition nothingActive : Settings.t := withActive false false false.

(** The default settings with the master switch [optimize] off. *)
Definition switchedOff : Settings.t := {|
  Settings.optimize := false;
  Settings.optimizeDuplicates := Settings.optimizeDuplicates Settings.default;
  Settings.optimizeSimilarPoints :=
    Settings.optimizeSimilarPoints Settings.default;
  Settings.optimizeSimilarPointsSlope :=
    Settings.optimizeSimilarPointsSlope Settings.default
|}.

(** [x] lies below the end of the table's range, or the table goes on
    rising after its last breakpoint. *)
Definition within (x : Q) (changes : list change) : Prop :=
  match changes with
  | [] => True
  | c :: rest =>
      x < coverage_from (0 + fst c) c rest \/ 0 < snd (last_change c rest)
  end.


(* ===================================================================== *)
(** ** Comparisons on rationals *)
(* ===================================================================== *)

Lemma Qle_bool_false x y : Qle_bool x y = false <-> y < x.
Proof.
  split.
  - intros H. apply Qnot_le_lt. intros Hle. apply Qle_bool_iff in Hle. congruence.
  - intros H. destruct (Qle_bool x y) eqn:E; [|done].
    apply Qle_bool_iff in E. lra.
Qed.

(* ===================================================================== *)
(** ** The outcome discipline *)
(* ===================================================================== *)

Section Guarded.

Context {A B : Type} (W : Prop).

Lemma guarded_ret (P : A -> DummyArrays -> Prop) a d :
  P a d -> guarded W P (ret a d).
Proof. done. Qed.

Lemma guarded_bind (P : A -> DummyArrays -> Prop)
    (Q : B -> DummyArrays -> Prop) (m : M A) (k : A -> M B) d :
  guarded W P (m d) ->
  (forall a d', P a d' -> guarded W Q (k a d')) ->
  guarded W Q (bind m k d).
Proof.
  unfold bind. destruct (m d) as [a d'|e d']; simpl; [|done].
  intros HP Hk. by apply Hk.
Qed.

Lemma guarded_mono (P Q : A -> DummyArrays -> Prop) o :
  guarded W P o -> (forall a d', P a d' -> Q a d') -> guarded W Q o.
Proof. destruct o; simpl; [|done]. intros HP HPQ. by apply HPQ. Qed.

End Guarded.

Lemma guarded_andM W (P : bool -> DummyArrays -> Prop) (a b : M bool) d :
  guarded W (fun _ d' => d' = d) (a d) ->
  guarded W P (b d) ->
  P false d ->
  guarded W P (andM a b d).
Proof.
  intros Ha Hb Hf. unfold andM.
  eapply guarded_bind; [exact Ha|].
  intros [] d' ->; [exact Hb|by apply guarded_ret].
Qed.

(* ===================================================================== *)
(** ** Scratch arrays and the predicates *)
(* ===================================================================== *)

Lemma length_write i v arr : length (write i v arr) = (length arr `max` S i)%nat.
Proof.
  unfold write. destruct (Nat.ltb_spec i (length arr)).
  - rewrite length_insert. lia.
  - rewrite !length_app, length_replicate. simpl. lia.
Qed.

Lemma length_fold_seq (g : list num -> nat -> list num) :
  (forall acc i, length (g acc i) = (length acc `max` S i)%nat) ->
  forall n acc, length (fold_left g (seq 0 n) acc) = (length acc `max` n)%nat.
Proof.
  intros Hg n. induction n as [|n IH]; intros acc.
  - simpl. lia.
  - rewrite seq_S, fold_left_app. simpl. rewrite Hg, IH. lia.
Qed.

Lemma length_SlopeOfPoint a b slopes :
  length (OptimizeMath.SlopeOfPoint a b slopes)
  = (length slopes `max` length (values b))%nat.
Proof.
  unfold OptimizeMath.SlopeOfPoint. apply length_fold_seq.
  intros acc i. by destruct (_ || _); rewrite length_write.
Qed.

Lemma length_GetYIntercept p slopeArray yIntercepts :
  length (OptimizeMath.GetYIntercept p slopeArray yIntercepts)
  = (length yIntercepts `max` length slopeArray)%nat.
Proof.
  unfold OptimizeMath.GetYIntercept. apply length_fold_seq.
  intros acc i. by rewrite length_write.
Qed.

Lemma areFloatsSimilar_guarded W e1 e2 threshold d :
  (W -> length e1 = length e2) ->
  guarded W (fun _ d' => d' = d)
    (OptimizeMath.areFloatsSimilar e1 e2 threshold d).
Proof.
  intros HW. unfold OptimizeMath.areFloatsSimilar.
  destruct (Nat.eqb_spec (length e1) (length e2)) as [E|E]; simpl; [done|].
  split; [by eexists _, _|]. intros HWt. by apply E, HW.
Qed.

Lemma arePointSimilar_guarded W a b dT tT d :
  (W -> same_arity a b) ->
  guarded W (fun _ d' => d' = d) (OptimizeMath.arePointSimilar a b dT tT d).
Proof.
  intros HW. unfold OptimizeMath.arePointSimilar.
  apply guarded_andM; [|done..].
  apply areFloatsSimilar_guarded. rewrite !length_fmap. exact HW.
Qed.

Lemma optimizeSimilarPoints_guarded W pointA pointB pointC dT tT d :
  (W -> arity_ok pointA pointB pointC) ->
  guarded W (fun _ d' => d' = d)
    (optimizeSimilarPoints pointA pointB pointC dT tT d).
Proof.
  intros HW. unfold optimizeSimilarPoints.
  destruct (_ || _); [done|].
  destruct pointC as [pointC|].
  - apply (guarded_bind W (fun _ d' => d' = d)); [|by intros ? ? ->].
    apply guarded_andM; [| |done]; apply arePointSimilar_guarded;
      intros HWt; by destruct (HW HWt).
  - apply (guarded_bind W (fun _ d' => d' = d)); [|by intros ? ? ->].
    apply arePointSimilar_guarded. intros HWt; by destruct (HW HWt).
Qed.

Lemma ComparePointsSlope_guarded W s m e tT dT yT d :
  (W -> same_arity m e /\ balanced d) ->
  guarded W (fun _ d' => W -> balanced d')
    (OptimizeMath.ComparePointsSlope s m e tT dT yT d).
Proof.
  intros HW. unfold OptimizeMath.ComparePointsSlope.
  destruct (_ || _); [simpl; intros HWt; by destruct (HW HWt)|].
  destruct (_ || _); [simpl; intros HWt; by destruct (HW HWt)|].
  eapply guarded_bind.
  { apply (guarded_andM W (fun _ d' => d' = d)); [done| |done].
    apply areFloatsSimilar_guarded. rewrite !length_fmap.
    intros HWt. by destruct (HW HWt). }
  intros pause d' ->.
  destruct pause; [simpl; intros HWt; by destruct (HW HWt)|].
  unfold getDummy, putDummy, bind at 1 2.
  set (endSlope := OptimizeMath.SlopeOfPoint s e (dummy1 d)).
  set (middleSlope := OptimizeMath.SlopeOfPoint s m (dummy0 d)).
  set (mY := OptimizeMath.GetYIntercept m middleSlope (dummy2 d)).
  set (eY := OptimizeMath.GetYIntercept e endSlope (dummy3 d)).
  assert (Hlen : W -> length middleSlope = length endSlope
                      /\ length middleSlope = length mY
                      /\ length middleSlope = length eY).
  { intros HWt. destruct (HW HWt) as [Hme (H1 & H2 & H3)].
    unfold mY, eY. rewrite !length_GetYIntercept.
    unfold middleSlope, endSlope. rewrite !length_SlopeOfPoint.
    unfold same_arity in Hme. lia. }
  set (dnew := mkDummy middleSlope endSlope mY eY).
  apply (guarded_bind W (fun _ d' => d' = dnew)).
  { apply guarded_andM; [| |done].
    - apply areFloatsSimilar_guarded. intros HWt.
      destruct (Hlen HWt) as (? & ? & ?). congruence.
    - apply areFloatsSimilar_guarded. intros HWt. by destruct (Hlen HWt). }
  intros sim d' ->. simpl. exact Hlen.
Qed.

(* ===================================================================== *)
(** ** The scan *)
(* ===================================================================== *)

Lemma length_insert_by_time a l : length (insert_by_time a l) = S (length l).
Proof.
  induction l as [|b l IH]; simpl; [done|].
  destruct (Qle_bool (time a) (time b)); simpl; [done|]. by rewrite IH.
Qed.

Lemma length_sort_by_time l : length (sort_by_time l) = length l.
Proof.
  induction l as [|a l IH]; simpl; [done|].
  by rewrite length_insert_by_time, IH.
Qed.

Lemma insert_by_time_perm a l : insert_by_time a l ≡ₚ a :: l.
Proof.
  induction l as [|b l IH]; simpl; [done|].
  destruct (Qle_bool (time a) (time b)); [done|].
  rewrite IH. apply Permutation_swap.
Qed.

Lemma sort_by_time_perm l : sort_by_time l ≡ₚ l.
Proof.
  induction l as [|a l IH]; simpl; [done|].
  by rewrite insert_by_time_perm, IH.
Qed.

Lemma insert_by_time_sorted a l :
  StronglySorted by_time l -> StronglySorted by_time (insert_by_time a l).
Proof.
  induction 1 as [|b l Hl IH Hb]; simpl; [repeat constructor|].
  destruct (Qle_bool (time a) (time b)) eqn:E.
  - apply Qle_bool_iff in E. constructor; [by constructor|].
    constructor; [exact E|].
    eapply Forall_impl; [exact Hb|]. unfold by_time. intros c Hc. lra.
  - apply Qle_bool_false in E. constructor; [exact IH|].
    rewrite insert_by_time_perm. constructor; [|exact Hb].
    unfold by_time. lra.
Qed.

Lemma sort_by_time_sorted l : StronglySorted by_time (sort_by_time l).
Proof.
  induction l as [|a l IH]; simpl; [constructor|].
  by apply insert_by_time_sorted.
Qed.

Section OptimizerFacts.

Variable settings : Settings.t.

Lemma processPoints_guarded W pointA pointB pointC d :
  (W -> arity_ok pointA pointB pointC /\ balanced d) ->
  guarded W (fun _ d' => W -> balanced d')
    (processPoints settings pointA pointB pointC d).
Proof.
  intros HW. unfold processPoints.
  apply (guarded_bind W (fun _ d' => d' = d)).
  { destruct (Settings.sp_active _); [|done].
    apply (guarded_bind W (fun _ d' => d' = d)); [|by intros ? ? ->].
    apply optimizeSimilarPoints_guarded. intros HWt. by destruct (HW HWt). }
  intros passed1 d' ->.
  apply (guarded_bind W (fun _ d' => W -> balanced d')); [|done].
  destruct (Settings.sl_active _).
  - apply (guarded_bind W (fun _ d' => W -> balanced d')); [|done].
    unfold optimizeSimilarPointsSlope.
    destruct pointC as [pointC|]; [|simpl; intros HWt; by destruct (HW HWt)].
    destruct (_ || _); [simpl; intros HWt; by destruct (HW HWt)|].
    apply (guarded_bind W (fun _ d' => W -> balanced d')); [|done].
    apply ComparePointsSlope_guarded.
    intros HWt. destruct (HW HWt) as [[_ ?] ?]. done.
  - simpl. intros HWt; by destruct (HW HWt).
Qed.

Lemma uniform_arity_sublist l1 l2 :
  l1 `sublist_of` l2 -> uniform_arity l2 -> uniform_arity l1.
Proof.
  intros Hsub Hu a b Ha Hb.
  apply Hu; eapply elem_of_sublist; eauto.
Qed.

Lemma interior_scan_guarded W fuel i points d :
  (1 <= fuel)%nat ->
  (length points <= fuel + i)%nat ->
  (W -> uniform_arity points /\ balanced d) ->
  guarded W (fun result d' =>
               result `sublist_of` points /\ (W -> balanced d'))
    (interior_scan settings fuel i points d).
Proof.
  revert i points d. induction fuel as [|fuel IH]; intros i points d Hf Hlen HW;
    [lia|].
  simpl. destruct (Nat.ltb_spec i (length points - 1)) as [Hi|Hi].
  - destruct (lookup_lt_is_Some_2 points (i - 1)) as [pointA HA]; [lia|].
    destruct (lookup_lt_is_Some_2 points i) as [pointB HB]; [lia|].
    destruct (lookup_lt_is_Some_2 points (i + 1)) as [pointC HC]; [lia|].
    rewrite HA, HB, HC.
    apply (guarded_bind W (fun _ d' => W -> balanced d')).
    { apply processPoints_guarded. intros HWt.
      destruct (HW HWt) as [Hu Hb]. split; [|done].
      split; apply Hu; eapply list_elem_of_lookup_2; eauto. }
    intros passed d' Hd'. destruct passed; simpl.
    + eapply guarded_mono; [apply IH; [lia|lia|]|done].
      intros HWt. split; [by destruct (HW HWt)|auto].
    + eapply guarded_mono.
      * apply IH; [lia| |].
        -- rewrite length_delete by eauto. lia.
        -- intros HWt. split; [|auto].
           eapply uniform_arity_sublist; [apply sublist_delete|].
           by destruct (HW HWt).
      * intros result d'' [Hsub Hb]. split; [|done].
        etrans; [exact Hsub|apply sublist_delete].
  - simpl. split; [done|]. intros HWt. by destruct (HW HWt).
Qed.

Lemma one_pass_guarded W points d :
  (W -> uniform_arity points /\ balanced d) ->
  guarded W (fun result d' =>
               result `sublist_of` points /\ (W -> balanced d'))
    (one_pass settings points d).
Proof.
  intros HW. unfold one_pass.
  apply (guarded_bind W (fun result d' =>
           result `sublist_of` points /\ (W -> balanced d'))).
  - destruct points as [|point0 [|point1 [|point2 rest]]];
      try (simpl; split; [done|]; intros HWt; by destruct (HW HWt)).
    apply (guarded_bind W (fun _ d' => W -> balanced d')).
    { apply processPoints_guarded. intros HWt.
      destruct (HW HWt) as [Hu Hb]. split; [|done].
      split; [|done]. apply Hu; [left|right; left]. }
    intros passed d' Hd'. destruct passed; simpl; split; try done.
    exact (sublist_delete [point0; point1] 1%nat).
  - intros result d' [Hsub Hb].
    eapply guarded_mono.
    + apply interior_scan_guarded; [lia|lia|].
      intros HWt. split; [|auto].
      eapply uniform_arity_sublist; [exact Hsub|]. by destruct (HW HWt).
    + intros result' d'' [Hsub' Hb']. split; [|done]. by etrans.
Qed.

Lemma pass_loop_guarded W passes points d :
  (W -> uniform_arity points /\ balanced d) ->
  guarded W (fun result d' =>
               result `sublist_of` points /\ (W -> balanced d'))
    (pass_loop settings passes points d).
Proof.
  revert points d. induction passes as [|passes IH]; intros points d HW.
  - simpl. split; [done|]. intros HWt. by destruct (HW HWt).
  - simpl.
    apply (guarded_bind W (fun result d' =>
             result `sublist_of` points /\ (W -> balanced d'))).
    + by apply one_pass_guarded.
    + intros result d' [Hsub Hb].
      eapply guarded_mono.
      * apply IH. intros HWt. split; [|auto].
        eapply uniform_arity_sublist; [exact Hsub|]. by destruct (HW HWt).
      * intros result' d'' [Hsub' Hb']. split; [|done]. by etrans.
Qed.

End OptimizerFacts.

Section ScanFacts.

Variable settings : Settings.t.

Lemma interior_scan_step (fuel i : nat) (points : list Keyframe)
    (pointA pointB pointC : Keyframe) (d : DummyArrays) :
  (i < length points - 1)%nat ->
  points !! (i - 1)%nat = Some pointA ->
  points !! i = Some pointB ->
  points !! (i + 1)%nat = Some pointC ->
  interior_scan settings (S fuel) i points d
  = bind (processPoints settings pointA pointB (Some pointC))
      (fun passed =>
         if passed then interior_scan settings fuel (i + 1) points
         else interior_scan settings fuel i (delete i points)) d.
Proof.
  intros Hi HA HB HC. simpl.
  destruct (Nat.ltb_spec i (length points - 1)); [|lia].
  rewrite HA, HB, HC. unfold bind.
  by destruct (processPoints _ _ _ _ _) as [[] ?|? ?].
Qed.

Lemma optimizeSimilarPoints_state pointA pointB pointC dT tT d r d' :
  optimizeSimilarPoints pointA pointB pointC dT tT d = Done r d' -> d' = d.
Proof.
  intros H.
  pose proof (optimizeSimilarPoints_guarded False pointA pointB pointC dT tT d)
    as Hg.
  rewrite H in Hg. apply Hg. done.
Qed.

Lemma processPoints_passed (pointA pointB : Keyframe)
    (pointC : option Keyframe) (d d' : DummyArrays) (passed : bool) :
  processPoints settings pointA pointB pointC d = Done passed d' ->
  passed = true
  <-> (Settings.dup_active (Settings.optimizeDuplicates settings) = true ->
       optimizeDuplicates pointA pointB pointC <> None)
      /\ (Settings.sp_active (Settings.optimizeSimilarPoints settings) = true ->
          exists p,
            optimizeSimilarPoints pointA pointB pointC
              (Settings.sp_differenceThreshold
                 (Settings.optimizeSimilarPoints settings))
              (Settings.sp_timeDifferenceThreshold
                 (Settings.optimizeSimilarPoints settings)) d
            = Done (Some p) d)
      /\ (Settings.sl_active (Settings.optimizeSimilarPointsSlope settings)
          = true ->
          exists p,
            optimizeSimilarPointsSlope pointA pointB pointC
              (Settings.sp_differenceThreshold
                 (Settings.optimizeSimilarPoints settings))
              (Settings.sp_timeDifferenceThreshold
                 (Settings.optimizeSimilarPoints settings))
              (Settings.sl_yInterceptDifferenceThreshold
                 (Settings.optimizeSimilarPointsSlope settings)) d
            = Done (Some p) d').
Proof.
  unfold processPoints, bind, ret.
  destruct (Settings.sp_active _).
  - destruct (optimizeSimilarPoints _ _ _ _ _ d) as [sp d1|e d1] eqn:Hsp;
      [|discriminate].
    pose proof (optimizeSimilarPoints_state _ _ _ _ _ _ _ _ Hsp) as ->.
    destruct (Settings.sl_active _).
    + destruct (optimizeSimilarPointsSlope _ _ _ _ _ _ d) as [sl d2|e d2];
        [|discriminate].
      intros H; injection H as <- <-.
      destruct (Settings.dup_active _), (optimizeDuplicates _ _ _), sp, sl;
        cbn; split; try discriminate; try (intros _; repeat split; eauto; done);
        intros (H1 & H2 & H3); try reflexivity;
        try (by exfalso; apply H1);
        try (destruct (H2 eq_refl) as [? ?]; discriminate);
        try (destruct (H3 eq_refl) as [? ?]; discriminate).
    + intros H; injection H as <- <-.
      destruct (Settings.dup_active _), (optimizeDuplicates _ _ _), sp;
        cbn; split; try discriminate; try (intros _; repeat split; eauto; done);
        intros (H1 & H2 & H3); try reflexivity;
        try (by exfalso; apply H1);
        try (destruct (H2 eq_refl) as [? ?]; discriminate).
  - destruct (Settings.sl_active _).
    + destruct (optimizeSimilarPointsSlope _ _ _ _ _ _ d) as [sl d2|e d2];
        [|discriminate].
      intros H; injection H as <- <-.
      destruct (Settings.dup_active _), (optimizeDuplicates _ _ _), sl;
        cbn; split; try discriminate; try (intros _; repeat split; eauto; done);
        intros (H1 & H2 & H3); try reflexivity;
        try (by exfalso; apply H1);
        try (destruct (H3 eq_refl) as [? ?]; discriminate).
    + intros H; injection H as <- <-.
      destruct (Settings.dup_active _), (optimizeDuplicates _ _ _);
        cbn; split; try discriminate; try (intros _; repeat split; eauto; done);
        intros (H1 & H2 & H3); try reflexivity;
        try (by exfalso; apply H1).
Qed.

Lemma slope_two_points pointA pointB dT tT yT d :
  optimizeSimilarPointsSlope pointA pointB None dT tT yT d = Done None d.
Proof. reflexivity. Qed.

Lemma two_points_slope_active (point0 point1 : Keyframe) (d d' : DummyArrays)
    (passed : bool) :
  Settings.sl_active (Settings.optimizeSimilarPointsSlope settings) = true ->
  processPoints settings point0 point1 None d = Done passed d' ->
  passed = false.
Proof.
  intros Hact H. destruct passed; [|done].
  apply (processPoints_passed _ _ _ _ _ _ H) in Hact as [p Hp]; [|done].
  discriminate Hp.
Qed.

End ScanFacts.

(* ===================================================================== *)
(** ** Comparisons *)
(* ===================================================================== *)

Lemma areFloatsSimilar_mismatch (e1 e2 : list num) thr d :
  length e1 <> length e2 ->
  OptimizeMath.areFloatsSimilar e1 e2 thr d
  = Raise (ArraysNotMatching (length e1) (length e2)) d.
Proof.
  intros Hne. unfold OptimizeMath.areFloatsSimilar.
  destruct (Nat.eqb_spec (length e1) (length e2)) as [E|E]; [done|].
  reflexivity.
Qed.

Lemma similar_from_Forall2 (e1 e2 : list Q) (threshold : Q) :
  length e1 = length e2 ->
  OptimizeMath.similar_from (Num <$> e1) (Num <$> e2) threshold = true
  <-> Forall2 (fun x y => Qabs (x - y) < threshold) e1 e2.
Proof.
  revert e2. induction e1 as [|x e1 IH]; intros [|y e2] Hlen;
    try discriminate Hlen;
    cbn [OptimizeMath.similar_from fmap list_fmap nsub nabs ngeb].
  - split; [constructor|done].
  - destruct (Qle_bool threshold (Qabs (x - y))) eqn:E.
    + apply Qle_bool_iff in E. split; [done|].
      intros H. inversion H; subst. lra.
    + apply Qle_bool_false in E. rewrite IH by (simpl in Hlen; lia).
      split; [by constructor|]. intros H. by inversion H.
Qed.

Lemma arePointSimilar_spec (a b : Keyframe) (dT tT : Q) (d : DummyArrays) :
  OptimizeMath.arePointSimilar a b dT tT d = Done true d
  <-> Forall2 (fun x y => Qabs (x - y) < dT) (values a) (values b)
      /\ Qabs (time a - time b) <= tT.
Proof.
  unfold OptimizeMath.arePointSimilar, andM, bind,
    OptimizeMath.areFloatsSimilar, ret, throw.
  rewrite !length_fmap.
  destruct (Nat.eqb_spec (length (values a)) (length (values b))) as [El|El];
    simpl.
  - pose proof (similar_from_Forall2 (values a) (values b) dT El) as Hs.
    destruct (OptimizeMath.similar_from _ _ _).
    + rewrite <- Qle_bool_iff.
      split.
      * intros H. split; [by apply Hs|]. congruence.
      * intros [_ H]. by rewrite H.
    + split; [done|]. intros [H _]. apply Hs in H. done.
  - split; [done|]. intros [H _]. apply Forall2_length in H. done.
Qed.

(* ===================================================================== *)
(** ** The two table walks *)
(* ===================================================================== *)

Lemma rate_positive (m x r bl bc : Q) :
  m <= x -> x < m + r * (bc - bl) -> bl < bc -> 0 < r.
Proof.
  intros Hm Hx Hb. destruct (Qlt_le_dec 0 r) as [|Hr]; [done|].
  exfalso.
  assert (H : 0 <= (- r) * (bc - bl)) by (apply Qmult_le_0_compat; lra).
  assert (E : (- r) * (bc - bl) == - (r * (bc - bl))) by ring.
  lra.
Qed.

Lemma interpolate_last (m x r b : Q) :
  m <= x -> 0 < r ->
  b <= b + (x - m) / r /\ m + r * (b + (x - m) / r - b) == x.
Proof.
  intros Hm Hr. split.
  - assert (0 <= (x - m) / r); [|lra].
    apply Qle_shift_div_l; lra.
  - field. lra.
Qed.

Lemma interpolate_inside (m x r bl bc : Q) :
  m <= x -> x < m + r * (bc - bl) -> bl < bc ->
  bl <= bl + (x - m) / r
  /\ bl + (x - m) / r < bc
  /\ m + r * (bl + (x - m) / r - bl) == x.
Proof.
  intros Hm Hx Hb.
  assert (Hr : 0 < r) by (eapply rate_positive; eauto).
  destruct (interpolate_last m x r bl Hm Hr) as [H1 H2].
  split; [done|]. split; [|done].
  assert ((x - m) / r < bc - bl); [|lra].
  apply Qlt_shift_div_r; lra.
Qed.

Lemma apply_solve_loop (x : Q) (rest : list change) :
  forall (m : Q) (l c : change),
    m <= x ->
    fst l < fst c ->
    increasing_from (fst c) rest ->
    x < coverage_from m l (c :: rest) \/ 0 < snd (last_change c rest) ->
    fst l <= solve_loop x m (Some l) c rest
    /\ apply_loop (solve_loop x m (Some l) c rest) m (Some l) c rest == x.
Proof.
  induction rest as [|n rest IH]; intros m l c Hm Hlc Hinc Hcond;
    cbn [solve_loop apply_loop];
    destruct (Qle_bool (m + snd l * (fst c - fst l)) x) eqn:E; cbn [negb].
  - apply Qle_bool_iff in E.
    assert (Hr : 0 < snd c) by (destruct Hcond as [Hc|]; [simpl in Hc; lra|done]).
    destruct (interpolate_last _ _ _ (fst c) E Hr) as [Hy Hx].
    rewrite (proj2 (Qle_bool_iff _ _) Hy). split; [lra|exact Hx].
  - apply Qle_bool_false in E.
    destruct (interpolate_inside _ _ _ _ _ Hm E Hlc) as (Hy0 & Hy1 & Hx).
    rewrite (proj2 (Qle_bool_false _ _) Hy1). split; [exact Hy0|exact Hx].
  - apply Qle_bool_iff in E. destruct Hinc as [Hcn Hinc].
    destruct (IH _ c n E Hcn Hinc Hcond) as [Hy Happ].
    rewrite (proj2 (Qle_bool_iff _ _) Hy). split; [lra|exact Happ].
  - apply Qle_bool_false in E.
    destruct (interpolate_inside _ _ _ _ _ Hm E Hlc) as (Hy0 & Hy1 & Hx).
    rewrite (proj2 (Qle_bool_false _ _) Hy1). split; [exact Hy0|exact Hx].
Qed.

Lemma apply_solve (x : Q) (changes : list change) :
  increasing changes -> within x changes ->
  apply (solve x changes) changes == x.
Proof.
  destruct changes as [|c rest]; [reflexivity|].
  intros Hinc Hcond. unfold apply, solve.
  destruct rest as [|n rest]; cbn [solve_loop apply_loop];
    destruct (Qle_bool (0 + fst c) x) eqn:E; cbn [negb].
  - apply Qle_bool_iff in E.
    assert (Hr : 0 < snd c) by (destruct Hcond as [Hc|]; [simpl in Hc; lra|done]).
    destruct (interpolate_last _ _ _ (fst c) E Hr) as [Hy Hx].
    rewrite (proj2 (Qle_bool_iff _ _) Hy).
    exact Hx.
  - apply Qle_bool_false in E.
    assert (Hy : fst c > x) by lra.
    rewrite (proj2 (Qle_bool_false _ _) Hy). reflexivity.
  - apply Qle_bool_iff in E. destruct Hinc as [Hcn Hinc].
    destruct (apply_solve_loop x rest _ c n E Hcn Hinc Hcond) as [Hy Happ].
    rewrite (proj2 (Qle_bool_iff _ _) Hy). exact Happ.
  - apply Qle_bool_false in E.
    assert (Hy : fst c > x) by lra.
    rewrite (proj2 (Qle_bool_false _ _) Hy). reflexivity.
Qed.

(* ===================================================================== *)
(** ** The scalar/sequence helper *)
(* ===================================================================== *)

Lemma promote_demote (ids : list Q) : LightRemapper.promote (LightRemapper.demote ids) = ids.
Proof. by destruct ids as [|id [|id' ids]]. Qed.

Lemma complexify_one_element (current : LightID)
    (callback : list Q -> list Q) (id : Q) :
  callback (LightRemapper.promote current) = [id] ->
  LightRemapper.complexifyLightIDs current callback = Scalar id.
Proof. unfold LightRemapper.complexifyLightIDs. by intros ->. Qed.


(* ===================================================================== *)
(** ** The optimizer: claims *)
(* ===================================================================== *)

(** C1.  The specification has the interior scan remove [points[i]] exactly
    when every active predicate family flags it.  The code tests the
    opposite: [processPoints] is true when every active family returned a
    point ([processPoints_passed]), and the scan splices when it is false
    ([interior_scan_step], which also shows that after a removal the same
    index is examined again).  At the three keyframes with equal values and
    only the duplicate family active, the middle keyframe is flagged by
    every active family and stays; with the middle value changed it is not
    flagged and is removed. *)
Theorem C1_interior_scan_is_inverted :
  let flagged := [keyframe [0; 0] 0; keyframe [0; 0] (1 # 2);
                  keyframe [0; 0] 1] in
  let unflagged := [keyframe [0; 0] 0; keyframe [1; 0] (1 # 2);
                    keyframe [0; 0] 1] in
  (optimizeDuplicates (keyframe [0; 0] 0) (keyframe [0; 0] (1 # 2))
     (Some (keyframe [0; 0] 1)) = Some (keyframe [0; 0] (1 # 2))
   /\ interior_scan onlyDuplicates 4 1 flagged freshDummyArrays
      = Done flagged freshDummyArrays)
  /\ (optimizeDuplicates (keyframe [0; 0] 0) (keyframe [1; 0] (1 # 2))
        (Some (keyframe [0; 0] 1)) = None
      /\ interior_scan onlyDuplicates 4 1 unflagged freshDummyArrays
         = Done [keyframe [0; 0] 0; keyframe [0; 0] 1] freshDummyArrays).
Proof. vm_compute. repeat split; reflexivity. Qed.

(** C2.  With [optimize] enabled and fewer than two keyframes the code
    leaves through the bare [return;], so the caller gets [undefined] and
    not the array the specification asks for. *)
Theorem C2_short_input_returns_undefined (settings : Settings.t)
    (points : list Keyframe) (passes : nat) (d : DummyArrays) :
  Settings.optimize settings = true ->
  (length points < 2)%nat ->
  optimizePoints settings points passes d = Done Undefined d.
Proof.
  intros Hopt Hlen. unfold optimizePoints. rewrite Hopt. simpl.
  rewrite length_sort_by_time.
  destruct (Nat.ltb_spec (length points) 2); [done|lia].
Qed.

Lemma C2_short_input_returns_undefined_witness :
  optimizePoints Settings.default [keyframe [0; 0] 0] 1 freshDummyArrays
  = Done Undefined freshDummyArrays.
Proof.
  apply C2_short_input_returns_undefined; [reflexivity|simpl; lia].
Defined.

(** C3.  The duplicate-removal scenario: on [[0,0,0],[0,0,0.5],[0,0,1]]
    with only the duplicate family active the code returns all three
    keyframes; the middle one is not removed. *)
Theorem C3_duplicate_scenario_keeps_middle :
  optimizePoints onlyDuplicates
    [keyframe [0; 0] 0; keyframe [0; 0] (1 # 2); keyframe [0; 0] 1] 1
    freshDummyArrays
  = Done (Points [keyframe [0; 0] 0; keyframe [0; 0] (1 # 2);
                  keyframe [0; 0] 1]) freshDummyArrays.
Proof. vm_compute. reflexivity. Qed.

(** C4.  Two keyframes with equal values, only the duplicate family
    active: the family reports the pair redundant and the second keyframe
    stays.  With the slope family switched on as well, its answer for two
    points ([undefined], always) makes [processPoints] false and the second
    keyframe is removed: the slope family does not contribute nothing. *)
Theorem C4_two_point_check_is_inverted :
  let pair := [keyframe [0; 0] 0; keyframe [0; 0] 1] in
  optimizeDuplicates (keyframe [0; 0] 0) (keyframe [0; 0] 1) None
  = Some (keyframe [0; 0] 0)
  /\ optimizePoints onlyDuplicates pair 1 freshDummyArrays
     = Done (Points pair) freshDummyArrays
  /\ optimizeSimilarPointsSlope (keyframe [0; 0] 0) (keyframe [0; 0] 1) None
       1 (3 # 100) (1 # 2) freshDummyArrays
     = Done None freshDummyArrays
  /\ optimizePoints duplicatesAndSlope pair 1 freshDummyArrays
     = Done (Points [keyframe [0; 0] 0]) freshDummyArrays.
Proof. vm_compute. repeat split; reflexivity. Qed.

(** C6, as stated, fails: two keyframes at the same time are similar under
    a time threshold of 0, although their time difference is not strictly
    below it. *)
Lemma C6_counterexample :
  let a := keyframe [0] 0 in
  let b := keyframe [1 # 2] 0 in
  optimizeSimilarPoints a b None 1 0 freshDummyArrays
  = Done (Some a) freshDummyArrays
  /\ ~ (Qabs (time a - time b) < 0).
Proof.
  split; [vm_compute; reflexivity|].
  intros H. vm_compute in H. discriminate H.
Qed.

(** C6, amended.  In exact arithmetic (every difference [|x - y|] taken
    without rounding, as the rationals of this model do; on doubles the
    code compares the rounded [Math.abs(a - b)], which can land on the
    threshold when the exact difference is below it), for two keyframes
    with equal easing and spline the two-point similar-points test reports
    the pair redundant exactly when every value channel differs by strictly
    less than [differenceThreshold] (which includes that the two have the
    same number of channels) and the times differ by at most
    [timeDifferenceThreshold]: the time comparison is inclusive.  With a
    [differenceThreshold] of 0 (or less) no two keyframes with a value
    channel are similar. *)
Theorem C6_similar_pair_thresholds (a b : Keyframe)
    (differenceThreshold timeDifferenceThreshold : Q) (d : DummyArrays) :
  easing a = easing b ->
  spline a = spline b ->
  (optimizeSimilarPoints a b None differenceThreshold
     timeDifferenceThreshold d = Done (Some a) d
   <-> Forall2 (fun x y => Qabs (x - y) < differenceThreshold)
         (values a) (values b)
       /\ Qabs (time a - time b) <= timeDifferenceThreshold)
  /\ (differenceThreshold <= 0 -> values a <> [] ->
      optimizeSimilarPoints a b None differenceThreshold
        timeDifferenceThreshold d <> Done (Some a) d).
Proof.
  intros He Hs.
  assert (Hiff : optimizeSimilarPoints a b None differenceThreshold
     timeDifferenceThreshold d = Done (Some a) d
   <-> Forall2 (fun x y => Qabs (x - y) < differenceThreshold)
         (values a) (values b)
       /\ Qabs (time a - time b) <= timeDifferenceThreshold).
  { rewrite <- (arePointSimilar_spec a b _ _ d).
    unfold optimizeSimilarPoints. rewrite He, Hs.
    rewrite !bool_decide_eq_true_2 by done. simpl.
    unfold bind, ret.
    destruct (OptimizeMath.arePointSimilar a b _ _ d) as [[] d'|e d'];
      simpl; split; intros H; try discriminate H; congruence. }
  split; [exact Hiff|].
  intros Hthr Hne H. apply Hiff in H. destruct H as [H _].
  destruct H as [|x y e1 e2 Hxy _]; [done|].
  pose proof (Qabs_nonneg (x - y)). lra.
Qed.

Lemma C6_similar_pair_thresholds_witness :
  let a := keyframe [0] 0 in
  let b := keyframe [1 # 2] (1 # 4) in
  optimizeSimilarPoints a b None 1 (1 # 4) freshDummyArrays
  = Done (Some a) freshDummyArrays
  <-> Forall2 (fun x y => Qabs (x - y) < 1) (values a) (values b)
      /\ Qabs (time a - time b) <= 1 # 4.
Proof.
  exact (proj1 (C6_similar_pair_thresholds (keyframe [0] 0)
                  (keyframe [1 # 2] (1 # 4)) 1 (1 # 4) freshDummyArrays
                  eq_refl eq_refl)).
Defined.

(** C7.  When the two keyframes compared have value vectors of different
    lengths, the comparison [areFloatsSimilar] raises, whatever the
    thresholds, and so do [arePointSimilar], through which the
    similar-points check reaches it, and that check itself; no prefix is
    compared.  ([areFloatsSimilar_mismatch] is the same fact for any two
    arrays, the slope check's scratch arrays among them.) *)
Theorem C7_mismatched_arity_raises (a b : Keyframe)
    (differenceThreshold timeDifferenceThreshold : Q) (d : DummyArrays) :
  length (values a) <> length (values b) ->
  OptimizeMath.areFloatsSimilar (Num <$> values a) (Num <$> values b)
    differenceThreshold d
  = Raise (ArraysNotMatching (length (values a)) (length (values b))) d
  /\ OptimizeMath.arePointSimilar a b differenceThreshold
       timeDifferenceThreshold d
     = Raise (ArraysNotMatching (length (values a)) (length (values b))) d
  /\ (easing a = easing b -> spline a = spline b ->
      optimizeSimilarPoints a b None differenceThreshold
        timeDifferenceThreshold d
      = Raise (ArraysNotMatching (length (values a)) (length (values b))) d).
Proof.
  intros Hne.
  assert (H : OptimizeMath.areFloatsSimilar (Num <$> values a)
                (Num <$> values b) differenceThreshold d
              = Raise (ArraysNotMatching (length (values a))
                         (length (values b))) d).
  { rewrite areFloatsSimilar_mismatch; rewrite !length_fmap; done. }
  assert (H' : OptimizeMath.arePointSimilar a b differenceThreshold
                 timeDifferenceThreshold d
               = Raise (ArraysNotMatching (length (values a))
                          (length (values b))) d).
  { unfold OptimizeMath.arePointSimilar, andM, bind. by rewrite H. }
  split; [exact H|]. split; [exact H'|].
  intros He Hs. unfold optimizeSimilarPoints. rewrite He, Hs.
  rewrite !bool_decide_eq_true_2 by done. simpl.
  unfold bind. by rewrite H'.
Qed.

Lemma C7_mismatched_arity_raises_witness :
  OptimizeMath.areFloatsSimilar [Num 0] [Num 0; Num 1] 1 freshDummyArrays
  = Raise (ArraysNotMatching 1 2) freshDummyArrays
  /\ OptimizeMath.arePointSimilar (keyframe [0] 0) (keyframe [0; 1] 0) 1
       (3 # 100) freshDummyArrays
     = Raise (ArraysNotMatching 1 2) freshDummyArrays.
Proof.
  assert (Hne : length (values (keyframe [0] 0))
                <> length (values (keyframe [0; 1] 0))) by (simpl; lia).
  destruct (C7_mismatched_arity_raises (keyframe [0] 0) (keyframe [0; 1] 0)
              1 (3 # 100) freshDummyArrays Hne) as (H1 & H2 & _).
  split; [exact H1|exact H2].
Defined.

(** C9, as stated, fails: on two keyframes of different arity the default
    settings make the optimizer raise; no sequence comes back. *)
Lemma C9_counterexample :
  ~ exists result d',
      optimizePoints Settings.default [keyframe [0] 0; keyframe [0; 1] 1] 1
        freshDummyArrays
      = Done (Points result) d'.
Proof. intros (result & d' & H). vm_compute in H. discriminate H. Qed.

(** C9, amended.  For every settings configuration, every number of passes
    and every input of at least two keyframes (or with the master switch
    off), [optimizePoints] either returns a subsequence of the working
    array (the input sorted by time, or the input itself when the switch is
    off), which is a rearrangement of the input and so no longer than it,
    or raises the arity error; and it raises only when the keyframes do
    not all have the same arity or the scratch arrays do not all have the
    same length.  It never returns nothing on such an input and never runs
    out of loop bound. *)
Theorem C9_optimize_stable_subsequence (settings : Settings.t)
    (points : list Keyframe) (passes : nat) (d : DummyArrays) :
  Settings.optimize settings = false \/ (2 <= length points)%nat ->
  match optimizePoints settings points passes d with
  | Done (Points result) _ =>
      result `sublist_of` working settings points
      /\ (length result <= length points)%nat
      /\ working settings points ≡ₚ points
      /\ (Settings.optimize settings = true ->
          StronglySorted by_time (working settings points))
  | Done Undefined _ => False
  | Raise e _ => mismatch e /\ ~ (uniform_arity points /\ balanced d)
  end.
Proof.
  intros Hin. unfold optimizePoints, working.
  destruct (Settings.optimize settings) eqn:Hopt; simpl.
  - destruct Hin as [?|Hlen]; [done|].
    rewrite length_sort_by_time.
    destruct (Nat.ltb_spec (length points) 2); [lia|].
    pose proof (pass_loop_guarded settings
                  (uniform_arity points /\ balanced d) passes
                  (sort_by_time points) d) as Hg.
    unfold bind.
    destruct (pass_loop settings passes (sort_by_time points) d)
      as [result d'|e d']; simpl in *.
    + destruct Hg as [Hsub _].
      { intros [Hu Hb]. split; [|done].
        intros a b Ha Hb'. apply Hu; by rewrite <- sort_by_time_perm. }
      split; [done|]. split; [|split; [apply sort_by_time_perm|]].
      * apply sublist_length in Hsub.
        by rewrite length_sort_by_time in Hsub.
      * intros _. apply sort_by_time_sorted.
    + apply Hg. intros [Hu Hb]. split; [|done].
      intros a b Ha Hb'. apply Hu; by rewrite <- sort_by_time_perm.
  - done.
Qed.

Lemma C9_optimize_stable_subsequence_witness :
  let points := [keyframe [0; 0] 1; keyframe [1; 0] 0;
                 keyframe [0; 0] (1 # 2)] in
  (2 <= length points)%nat
  /\ match optimizePoints Settings.default points 1 freshDummyArrays with
     | Done (Points result) _ =>
         result `sublist_of` working Settings.default points
         /\ (length result <= length points)%nat
         /\ working Settings.default points ≡ₚ points
         /\ (Settings.optimize Settings.default = true ->
             StronglySorted by_time (working Settings.default points))
     | Done Undefined _ => False
     | Raise e _ =>
         mismatch e /\ ~ (uniform_arity points /\ balanced freshDummyArrays)
     end.
Proof.
  split; [simpl; lia|].
  apply (C9_optimize_stable_subsequence Settings.default).
  right. simpl. lia.
Defined.

(* ===================================================================== *)
(** ** The light remapper: claims *)
(* ===================================================================== *)

(** C5, as stated, fails: with the table [[1,2],[3,1]] and offset 10, the
    value 2 (between the breakpoints, on none of them) comes back as 12. *)
Lemma C5_counterexample :
  let table := [(1, 2); (3, 1)] in
  increasing table
  /\ (1 < 2 /\ 2 < 3)
  /\ applyLightMap 10 table (solveLightMap table [2]) = [24 # 2]
  /\ ~ (24 # 2 == 2).
Proof.
  simpl. repeat split; try reflexivity.
  intros H. discriminate H.
Qed.

(** C5, amended.  In exact arithmetic, for every table with strictly
    increasing breakpoints and every [x] below the end of the table's range
    (or any [x], when the last rate is positive), applying after solving
    gives [x] plus the offset: the two walks are inverse to each other, and
    the offset is added on top. *)
Theorem C5_apply_after_solve (changes : list change) (offset : Q)
    (ids : list Q) :
  increasing changes ->
  Forall (fun x => within x changes) ids ->
  Forall2 Qeq (applyLightMap offset changes (solveLightMap changes ids))
    ((fun x => x + offset) <$> ids).
Proof.
  intros Hinc Hids. unfold applyLightMap, solveLightMap.
  induction Hids as [|x ids Hx Hids IH]; simpl; constructor; [|exact IH].
  rewrite (apply_solve x changes Hinc Hx). reflexivity.
Qed.

Lemma C5_apply_after_solve_witness :
  let table := [(1, 2); (3, 1)] in
  Forall2 Qeq (applyLightMap 10 table (solveLightMap table [2; 4]))
    [2 + 10; 4 + 10].
Proof.
  apply (C5_apply_after_solve [(1, 2); (3, 1)] 10 [2; 4]).
  - simpl. split; [reflexivity|exact I].
  - repeat constructor; left; reflexivity.
Defined.

(** C8, as stated, fails: a step of 0 is given, and light ID 7 goes to
    7 + 10 and not to (7 - 1) * 0 + 1 + 10. *)
Lemma C8_counterexample :
  lightID (LightRemapper.addToEnd 10 (Some 0)
             (mkEvent 0 None (Some (Scalar 7))))
  = Some (Scalar 17)
  /\ ~ (17 == (7 - 1) * 0 + 1 + 10).
Proof. split; [reflexivity|]. intros H. discriminate H. Qed.

(** C8, amended.  On an event whose [lightID] passes the presence test
    (there, and not the bare number 0), [addToEnd] maps every light ID [i]
    to [(i - 1) * step + 1 + offset] when a step other than 0 is given, and
    to [i + offset] when the step is absent or 0.  In particular offset 10
    takes light ID 7 to 17, and with step 2 to 23. *)
Theorem C8_addToEnd_maps_ids (offset : Q) (step : option Q)
    (x : AbstractEvent) (current : LightID) :
  lightID x = Some current ->
  truthy (Some current) = true ->
  (exists remapped,
      lightID (LightRemapper.addToEnd offset step x) = Some remapped
      /\ LightRemapper.promote remapped
         = (fun i =>
              match step with
              | Some s =>
                  if Qeq_bool s 0 then i + offset
                  else (i - 1) * s + 1 + offset
              | None => i + offset
              end) <$> LightRemapper.promote current)
  /\ lightID (LightRemapper.addToEnd 10 None
                (mkEvent 0 None (Some (Scalar 7))))
     = Some (Scalar 17)
  /\ lightID (LightRemapper.addToEnd 10 (Some 2)
                (mkEvent 0 None (Some (Scalar 7))))
     = Some (Scalar 23).
Proof.
  intros Hl Ht. split; [|split; reflexivity].
  unfold LightRemapper.addToEnd. rewrite Hl, Ht. cbn [lightID set_lightID].
  eexists. split; [reflexivity|].
  unfold LightRemapper.complexifyLightIDs. rewrite promote_demote.
  apply list_fmap_ext. intros _ i _.
  destruct step as [s|]; [|reflexivity].
  unfold truthy_number. by destruct (Qeq_bool s 0).
Qed.

Lemma C8_addToEnd_maps_ids_witness :
  exists remapped,
    lightID (LightRemapper.addToEnd 10 (Some 2)
               (mkEvent 0 None (Some (Sequence [7; 8]))))
    = Some remapped
    /\ LightRemapper.promote remapped
       = [(7 - 1) * 2 + 1 + 10; (8 - 1) * 2 + 1 + 10].
Proof.
  exact (proj1 (C8_addToEnd_maps_ids 10 (Some 2)
                  (mkEvent 0 None (Some (Sequence [7; 8])))
                  (Sequence [7; 8]) eq_refl eq_refl)).
Defined.

(** C10, as stated, fails for [appendIDs]: appending light ID 5 to the
    one-element sequence [[7]] writes back the sequence [[7, 5]], not a
    bare number. *)
Lemma C10_counterexample :
  lightID (LightRemapper.appendIDs (Scalar 5) false
             (mkEvent 0 None (Some (Sequence [7]))))
  = Some (Sequence [7; 5])
  /\ ~ exists id,
         lightID (LightRemapper.appendIDs (Scalar 5) false
                    (mkEvent 0 None (Some (Sequence [7]))))
         = Some (Scalar id).
Proof. split; [reflexivity|]. intros [id H]. discriminate H. Qed.

(** C10, amended.  The helper demotes every callback result of exactly one
    element to a bare number, whatever the shape of the input.  So
    [normalizeLinear], [normalizeWithChanges], [addToEnd] and [remapEnd],
    which keep the number of IDs, write a one-element sequence back as a
    bare number; [appendIDs] does so only when it appends nothing, and
    otherwise writes back the longer sequence. *)
Theorem C10_one_element_sequence (a : Q) (x : AbstractEvent)
    (step start offset : Q) (endStep : option Q) (map : list change)
    (appended : LightID) (initialize : bool) :
  lightID x = Some (Sequence [a]) ->
  (forall current callback id,
      callback (LightRemapper.promote current) = [id] ->
      LightRemapper.complexifyLightIDs current callback = Scalar id)
  /\ lightID (LightRemapper.normalizeLinear step start x)
     = Some (Scalar (solve a [(start, step)]))
  /\ lightID (LightRemapper.normalizeWithChanges map x)
     = Some (Scalar (solve a map))
  /\ (exists id,
         lightID (LightRemapper.addToEnd offset endStep x) = Some (Scalar id))
  /\ lightID (LightRemapper.remapEnd map offset x)
     = Some (Scalar (apply a map + offset))
  /\ (LightRemapper.promote appended = [] ->
      lightID (LightRemapper.appendIDs appended initialize x)
      = Some (Scalar a))
  /\ (LightRemapper.promote appended <> [] ->
      lightID (LightRemapper.appendIDs appended initialize x)
      = Some (Sequence (a :: LightRemapper.promote appended))).
Proof.
  intros Hl. split; [exact complexify_one_element|].
  unfold LightRemapper.normalizeLinear, LightRemapper.normalizeWithChanges,
    LightRemapper.addToEnd, LightRemapper.remapEnd, LightRemapper.appendIDs.
  rewrite Hl. cbn.
  repeat split; try reflexivity.
  - eexists. reflexivity.
  - intros ->. reflexivity.
  - intros Hne. destruct (LightRemapper.promote appended); [done|reflexivity].
Qed.

Lemma C10_one_element_sequence_witness :
  lightID (LightRemapper.normalizeLinear 2 1
             (mkEvent 0 None (Some (Sequence [5]))))
  = Some (Scalar (solve 5 [(1, 2)]))
  /\ lightID (LightRemapper.appendIDs (Sequence []) false
                (mkEvent 0 None (Some (Sequence [5]))))
     = Some (Scalar 5).
Proof.
  pose proof (C10_one_element_sequence 5
                (mkEvent 0 None (Some (Sequence [5]))) 2 1 0 None []
                (Sequence []) false eq_refl) as (_ & H1 & _ & _ & _ & H2 & _).
  split; [exact H1|exact (H2 eq_refl)].
Defined.

(* ===================================================================== *)
(** * Further properties of the code *)
(* ===================================================================== *)

(* ===================================================================== *)
(** ** More on the predicate families *)
(* ===================================================================== *)

Lemma identical_from_Forall2 (e1 e2 : list Q) :
  length e1 = length e2 ->
  OptimizeMath.identical_from e1 e2 = true <-> Forall2 Qeq e1 e2.
Proof.
  revert e2. induction e1 as [|x e1 IH]; intros [|y e2] Hlen;
    try discriminate Hlen; cbn [OptimizeMath.identical_from].
  - split; [constructor|done].
  - destruct (Qeq_bool x y) eqn:E; cbn [negb].
    + apply Qeq_bool_iff in E. rewrite IH by (simpl in Hlen; lia).
      split; [by constructor|]. intros H. by inversion H.
    + split; [done|]. intros H. inversion H; subst.
      assert (Qeq_bool x y = true) by (by apply Qeq_bool_iff). congruence.
Qed.

Lemma areArrayElementsIdentical_spec (e1 e2 : list Q) :
  OptimizeMath.areArrayElementsIdentical e1 e2 = true <-> Forall2 Qeq e1 e2.
Proof.
  unfold OptimizeMath.areArrayElementsIdentical.
  destruct (Nat.eqb_spec (length e1) (length e2)) as [E|E]; cbn [negb].
  - by apply identical_from_Forall2.
  - split; [done|]. intros H. apply Forall2_length in H. done.
Qed.

(** X1.  The duplicate family looks at the values only.  For three points
    it reports the middle one exactly when the three value vectors are
    equal channel by channel, for two points it reports the first one
    exactly when the two vectors are; vectors of different lengths are
    simply not duplicates, and times, easing and spline play no part.  It
    reports no other point than these. *)
Theorem X1_duplicates_by_values (pointA pointB pointC : Keyframe) :
  (optimizeDuplicates pointA pointB (Some pointC) = Some pointB
   <-> Forall2 Qeq (values pointA) (values pointB)
       /\ Forall2 Qeq (values pointB) (values pointC))
  /\ (optimizeDuplicates pointA pointB None = Some pointA
      <-> Forall2 Qeq (values pointA) (values pointB))
  /\ (forall p, optimizeDuplicates pointA pointB (Some pointC) = Some p ->
                p = pointB)
  /\ (forall p, optimizeDuplicates pointA pointB None = Some p -> p = pointA).
Proof.
  unfold optimizeDuplicates.
  pose proof (areArrayElementsIdentical_spec (values pointA) (values pointB))
    as HAB.
  pose proof (areArrayElementsIdentical_spec (values pointB) (values pointC))
    as HBC.
  destruct (OptimizeMath.areArrayElementsIdentical (values pointA)
              (values pointB));
    destruct (OptimizeMath.areArrayElementsIdentical (values pointB)
                (values pointC)); cbn [andb];
    repeat split; try done; try tauto; try congruence;
    try (intros [H1 H2]); try (intros H1);
    try (apply HAB in H1; discriminate H1);
    try (apply HBC in H2; discriminate H2);
    try (by apply HAB); try (by apply HBC).
Qed.

Lemma Forall2_similar_sym (threshold : Q) (e1 e2 : list Q) :
  Forall2 (fun x y => Qabs (x - y) < threshold) e1 e2 ->
  Forall2 (fun x y => Qabs (x - y) < threshold) e2 e1.
Proof.
  intros H. apply Forall2_flip. eapply Forall2_impl; [exact H|].
  intros x y Hxy. unfold flip. by rewrite Qabs_Qminus.
Qed.

Lemma arePointSimilar_outcome (a b : Keyframe) (dT tT : Q) (d : DummyArrays) :
  (exists r, OptimizeMath.arePointSimilar a b dT tT d = Done r d)
  \/ OptimizeMath.arePointSimilar a b dT tT d
     = Raise (ArraysNotMatching (length (values a)) (length (values b))) d
     /\ length (values a) <> length (values b).
Proof.
  unfold OptimizeMath.arePointSimilar, andM, bind,
    OptimizeMath.areFloatsSimilar, ret, throw.
  rewrite !length_fmap.
  destruct (Nat.eqb_spec (length (values a)) (length (values b))); simpl.
  - left. destruct (OptimizeMath.similar_from _ _ _); eauto.
  - by right.
Qed.

(** X2.  The near-duplicate comparison of two keyframes does not depend on
    their order: it gives the same verdict both ways round, and it raises
    one way exactly when it raises the other. *)
Theorem X2_arePointSimilar_symmetric (a b : Keyframe)
    (differenceThreshold timeDifferenceThreshold : Q) (d : DummyArrays)
    (r : bool) :
  OptimizeMath.arePointSimilar a b differenceThreshold
    timeDifferenceThreshold d = Done r d
  <-> OptimizeMath.arePointSimilar b a differenceThreshold
        timeDifferenceThreshold d = Done r d.
Proof.
  assert (Hone : forall a b,
    OptimizeMath.arePointSimilar a b differenceThreshold
      timeDifferenceThreshold d = Done true d ->
    OptimizeMath.arePointSimilar b a differenceThreshold
      timeDifferenceThreshold d = Done true d).
  { intros a' b' H. apply arePointSimilar_spec in H as [Hv Ht].
    apply arePointSimilar_spec. split; [by apply Forall2_similar_sym|].
    by rewrite Qabs_Qminus. }
  assert (Hdir : forall a b,
    OptimizeMath.arePointSimilar a b differenceThreshold
      timeDifferenceThreshold d = Done r d ->
    OptimizeMath.arePointSimilar b a differenceThreshold
      timeDifferenceThreshold d = Done r d).
  { intros a' b' H. destruct r; [by apply Hone|].
    destruct (arePointSimilar_outcome b' a' differenceThreshold
                timeDifferenceThreshold d) as [[[] Hr]|[Hr Hne]].
    - apply Hone in Hr. congruence.
    - exact Hr.
    - destruct (arePointSimilar_outcome a' b' differenceThreshold
                  timeDifferenceThreshold d) as [[r' Hr']|[Hr' Hne']];
        [|congruence].
      exfalso.
      unfold OptimizeMath.arePointSimilar, andM, bind,
        OptimizeMath.areFloatsSimilar, ret, throw in Hr'.
      rewrite !length_fmap in Hr'.
      destruct (Nat.eqb_spec (length (values a')) (length (values b')));
        [|discriminate Hr']. congruence. }
  split; apply Hdir.
Qed.

(** X3.  Raising a threshold never turns a similar pair into a dissimilar
    one. *)
Theorem X3_arePointSimilar_monotone (a b : Keyframe)
    (differenceThreshold timeDifferenceThreshold
       differenceThreshold' timeDifferenceThreshold' : Q)
    (d : DummyArrays) :
  differenceThreshold <= differenceThreshold' ->
  timeDifferenceThreshold <= timeDifferenceThreshold' ->
  OptimizeMath.arePointSimilar a b differenceThreshold
    timeDifferenceThreshold d = Done true d ->
  OptimizeMath.arePointSimilar a b differenceThreshold'
    timeDifferenceThreshold' d = Done true d.
Proof.
  intros Hd Ht H. apply arePointSimilar_spec in H as [Hv Htime].
  apply arePointSimilar_spec. split; [|lra].
  eapply Forall2_impl; [exact Hv|]. intros x y Hxy. simpl in *. lra.
Qed.

Lemma X3_arePointSimilar_monotone_witness :
  OptimizeMath.arePointSimilar (keyframe [0] 0) (keyframe [1 # 2] (1 # 4))
    2 1 freshDummyArrays = Done true freshDummyArrays.
Proof.
  apply (X3_arePointSimilar_monotone _ _ 1 (1 # 4)).
  - discriminate.
  - discriminate.
  - vm_compute. reflexivity.
Defined.

(** X4.  In exact arithmetic (every difference [|x - y|] taken without
    rounding; on doubles the code compares the rounded [Math.abs(a - b)]),
    the near-duplicate family on three points reports the middle keyframe
    exactly when neighbouring keyframes carry the same easing and spline
    and both neighbouring pairs are similar (value channels strictly within
    [differenceThreshold], times within [timeDifferenceThreshold]).  When
    the first two keyframes differ in easing or spline nothing is compared
    at all (this part does not depend on the arithmetic): the answer is
    "not redundant", also for value vectors of different lengths. *)
Theorem X4_similar_points_three (pointA pointB pointC : Keyframe)
    (differenceThreshold timeDifferenceThreshold : Q) (d : DummyArrays) :
  (optimizeSimilarPoints pointA pointB (Some pointC) differenceThreshold
     timeDifferenceThreshold d = Done (Some pointB) d
   <-> (easing pointA = easing pointB /\ spline pointA = spline pointB
        /\ easing pointB = easing pointC /\ spline pointB = spline pointC)
       /\ (Forall2 (fun x y => Qabs (x - y) < differenceThreshold)
             (values pointA) (values pointB)
           /\ Qabs (time pointA - time pointB) <= timeDifferenceThreshold)
       /\ (Forall2 (fun x y => Qabs (x - y) < differenceThreshold)
             (values pointB) (values pointC)
           /\ Qabs (time pointB - time pointC) <= timeDifferenceThreshold))
  /\ (forall pointC',
        easing pointA <> easing pointB \/ spline pointA <> spline pointB ->
        optimizeSimilarPoints pointA pointB pointC' differenceThreshold
          timeDifferenceThreshold d = Done None d).
Proof.
  split.
  - rewrite <- !arePointSimilar_spec with (d := d).
    unfold optimizeSimilarPoints.
    destruct (decide (easing pointA = easing pointB)) as [E1|E1];
      [rewrite (bool_decide_eq_true_2 _ E1)
      |rewrite (bool_decide_eq_false_2 _ E1)]; cbn [negb orb];
      [|split; [discriminate|tauto]].
    destruct (decide (spline pointA = spline pointB)) as [E2|E2];
      [rewrite (bool_decide_eq_true_2 _ E2)
      |rewrite (bool_decide_eq_false_2 _ E2)]; cbn [negb orb];
      [|split; [discriminate|tauto]].
    destruct (decide (spline pointB = spline pointC)) as [E3|E3];
      [rewrite (bool_decide_eq_true_2 _ E3)
      |rewrite (bool_decide_eq_false_2 _ E3)]; cbn [negb orb];
      [|split; [discriminate|tauto]].
    destruct (decide (easing pointB = easing pointC)) as [E4|E4];
      [rewrite (bool_decide_eq_true_2 _ E4)
      |rewrite (bool_decide_eq_false_2 _ E4)]; cbn [negb orb];
      [|split; [discriminate|tauto]].
    unfold andM, bind, ret.
    destruct (arePointSimilar_outcome pointA pointB differenceThreshold
                timeDifferenceThreshold d) as [[r1 H1]|[H1 _]];
      rewrite H1; cbv beta iota;
      [|split; [discriminate|intros (_ & H & _); discriminate H]].
    destruct r1; cbv beta iota;
      [|split; [discriminate|intros (_ & H & _); discriminate H]].
    destruct (arePointSimilar_outcome pointB pointC differenceThreshold
                timeDifferenceThreshold d) as [[r2 H2]|[H2 _]];
      rewrite H2; cbv beta iota; try destruct r2;
      split; try discriminate; try done;
      try (intros (_ & Ha & Hb); congruence).
  - intros pointC' Hne. unfold optimizeSimilarPoints.
    destruct Hne as [Hne|Hne];
      rewrite (bool_decide_eq_false_2 _ Hne); cbn [negb orb]; [done|].
    by rewrite orb_true_r.
Qed.

Lemma X4_similar_points_three_witness :
  optimizeSimilarPoints (mkKeyframe [0] 0 (Some "easeInQuad"%string) None)
    (mkKeyframe [0; 1] 1 None None) None 1 (3 # 100) freshDummyArrays
  = Done None freshDummyArrays.
Proof.
  apply (proj2 (X4_similar_points_three
                  (mkKeyframe [0] 0 (Some "easeInQuad"%string) None)
                  (mkKeyframe [0; 1] 1 None None)
                  (mkKeyframe [0; 1] 1 None None) 1 (3 # 100)
                  freshDummyArrays)).
  left. discriminate.
Defined.

(** X5.  In exact arithmetic (every difference [|x - y|] taken without
    rounding; on doubles the code compares the rounded [Math.abs(a - b)]),
    the slope family reports nothing, raises nothing and leaves the scratch
    arrays alone in two situations: when two of the three keyframes lie
    within [timeDifferenceThreshold] of each other in time, and when the
    last two keyframes have similar values (every channel strictly within
    [differenceThreshold]) but are more than [differenceThreshold] apart in
    time (a hold). *)
Theorem X5_slope_silent (pointA pointB pointC : Keyframe)
    (differenceThreshold timeDifferenceThreshold
       yInterceptDifferenceThreshold : Q) (d : DummyArrays) :
  (Qabs (time pointA - time pointC) <= timeDifferenceThreshold
   \/ Qabs (time pointA - time pointB) <= timeDifferenceThreshold
   \/ Qabs (time pointB - time pointC) <= timeDifferenceThreshold)
  \/ (differenceThreshold < Qabs (time pointC - time pointB)
      /\ Forall2 (fun x y => Qabs (x - y) < differenceThreshold)
           (values pointC) (values pointB)) ->
  optimizeSimilarPointsSlope pointA pointB (Some pointC) differenceThreshold
    timeDifferenceThreshold yInterceptDifferenceThreshold d
  = Done None d.
Proof.
  intros H. unfold optimizeSimilarPointsSlope.
  destruct (_ || _); [done|].
  unfold OptimizeMath.ComparePointsSlope, bind.
  destruct (Qle_bool (Qabs (time pointA - time pointC))
              timeDifferenceThreshold) eqn:E1; cbn [orb]; [done|].
  destruct (Qle_bool (Qabs (time pointA - time pointB))
              timeDifferenceThreshold) eqn:E2; cbn [orb]; [done|].
  destruct (Qle_bool (Qabs (time pointB - time pointC))
              timeDifferenceThreshold) eqn:E3; cbn [orb]; [done|].
  apply Qle_bool_false in E1, E2, E3.
  destruct H as [[H|[H|H]]|[Hgap Hsim]]; try lra.
  destruct (_ || _); [done|].
  unfold andM, bind, ret.
  rewrite (proj2 (Qle_bool_false _ _) Hgap). cbn [negb].
  unfold OptimizeMath.areFloatsSimilar, ret.
  rewrite !length_fmap, (Forall2_length _ _ _ Hsim), Nat.eqb_refl.
  cbn [negb].
  rewrite (proj2 (similar_from_Forall2 _ _ _ (Forall2_length _ _ _ Hsim))
             Hsim).
  reflexivity.
Qed.

Lemma X5_slope_silent_witness :
  optimizeSimilarPointsSlope (keyframe [0] 0) (keyframe [1] 1)
    (Some (keyframe [1] 3)) 1 (3 # 100) (1 # 2) freshDummyArrays
  = Done None freshDummyArrays.
Proof.
  apply X5_slope_silent. right. split.
  - reflexivity.
  - repeat constructor.
Defined.

Lemma fold_write_closed (g : nat -> num) (n : nat) (arr : list num) :
  fold_left (fun arr i => write i (g i) arr) (seq 0 n) arr
  = (g <$> seq 0 n) ++ drop n arr.
Proof.
  induction n as [|n IH].
  - simpl. by rewrite drop_0.
  - rewrite seq_S, fold_left_app, fmap_app. cbn [fold_left fmap list_fmap].
    rewrite IH. simpl. unfold write.
    rewrite length_app, length_fmap, length_seq, length_drop.
    destruct (Nat.ltb_spec n (n + (length arr - n))) as [Hn|Hn].
    + rewrite insert_app_r_alt by (rewrite length_fmap, length_seq; lia).
      rewrite length_fmap, length_seq, Nat.sub_diag.
      destruct (drop n arr) as [|x rest] eqn:E;
        [apply (f_equal length) in E; rewrite length_drop in E;
         simpl in E; lia|].
      simpl. rewrite <- app_assoc. simpl. do 2 f_equal.
      replace (S n) with (n + 1)%nat by lia.
      by rewrite <- drop_drop, E.
    + assert (Hd : drop n arr = []) by (apply drop_ge; lia).
      rewrite Hd, (drop_ge arr (S n)) by lia.
      replace (n - (n + (length arr - n)))%nat with 0%nat by lia.
      simpl. by rewrite !app_nil_r.
Qed.

(** the slope [SlopeOfPoint] writes at index [i] *)
Lemma SlopeOfPoint_closed (a b : Keyframe) (slopes : list num) :
  OptimizeMath.SlopeOfPoint a b slopes
  = ((fun i =>
        let xDiff := nsub (read (values b) i) (read (values a) i) in
        if nis0 xDiff || Qeq_bool (time b - time a) 0 then Num 0
        else ndiv (Num (time b - time a)) xDiff)
       <$> seq 0 (length (values b)))
    ++ drop (length (values b)) slopes.
Proof.
  rewrite <- fold_write_closed. unfold OptimizeMath.SlopeOfPoint.
  generalize (seq 0 (length (values b))). intros l. revert slopes.
  induction l as [|i l IH]; intros slopes; [done|].
  simpl. rewrite <- IH. by destruct (_ || _).
Qed.

Lemma GetYIntercept_closed (p : Keyframe) (slopeArray yIntercepts : list num) :
  OptimizeMath.GetYIntercept p slopeArray yIntercepts
  = ((fun i =>
        nsub (Num (time p)) (nmul (nread slopeArray i) (read (values p) i)))
       <$> seq 0 (length slopeArray))
    ++ drop (length slopeArray) yIntercepts.
Proof. by rewrite <- fold_write_closed. Qed.

(** X6.  [SlopeOfPoint] overwrites exactly the first [b.values.length]
    entries of the array it is handed and leaves every entry beyond them
    as it was, so a scratch array that an earlier, wider curve made longer
    keeps its old entries.  The entry written is 0 when the two keyframes
    have the same time and when the channel has the same value in both. *)
Theorem X6_SlopeOfPoint_entries (a b : Keyframe) (slopes : list num)
    (i : nat) :
  ((length (values b) <= i)%nat ->
   OptimizeMath.SlopeOfPoint a b slopes !! i = slopes !! i)
  /\ ((i < length (values b))%nat -> time a == time b ->
      OptimizeMath.SlopeOfPoint a b slopes !! i = Some (Num 0))
  /\ (forall x y,
        values a !! i = Some x -> values b !! i = Some y -> x == y ->
        OptimizeMath.SlopeOfPoint a b slopes !! i = Some (Num 0)).
Proof.
  rewrite SlopeOfPoint_closed.
  set (g := fun i : nat => _).
  assert (Hin : forall j, (j < length (values b))%nat ->
            ((g <$> seq 0 (length (values b)))
               ++ drop (length (values b)) slopes) !! j = Some (g j)).
  { intros j Hj. rewrite lookup_app_l by (by rewrite length_fmap, length_seq).
    rewrite list_lookup_fmap, lookup_seq_lt by done. reflexivity. }
  split; [|split].
  - intros Hi. rewrite lookup_app_r by (by rewrite length_fmap, length_seq).
    rewrite length_fmap, length_seq, lookup_drop. f_equal. lia.
  - intros Hi Ht. rewrite Hin by done. unfold g.
    assert (E : Qeq_bool (time b - time a) 0 = true)
      by (apply Qeq_bool_iff; lra).
    by rewrite E, orb_true_r.
  - intros x y Hx Hy Hxy.
    rewrite Hin by (by apply lookup_lt_Some in Hy). unfold g, read.
    rewrite Hx, Hy. cbn [nsub nis0].
    assert (E : Qeq_bool (y - x) 0 = true) by (apply Qeq_bool_iff; lra).
    by rewrite E.
Qed.

Lemma X6_SlopeOfPoint_entries_witness :
  OptimizeMath.SlopeOfPoint (keyframe [0; 1] 0) (keyframe [2; 1] 1)
    [Num 5; Num 6; Num 7] !! 2%nat = Some (Num 7)
  /\ OptimizeMath.SlopeOfPoint (keyframe [0; 1] 0) (keyframe [2; 1] 1)
       [Num 5; Num 6; Num 7] !! 1%nat = Some (Num 0).
Proof.
  destruct (X6_SlopeOfPoint_entries (keyframe [0; 1] 0) (keyframe [2; 1] 1)
              [Num 5; Num 6; Num 7] 2) as (H1 & _ & _).
  destruct (X6_SlopeOfPoint_entries (keyframe [0; 1] 0) (keyframe [2; 1] 1)
              [Num 5; Num 6; Num 7] 1) as (_ & _ & H2).
  split; [exact (H1 (le_n 2))|].
  exact (H2 1 1 eq_refl eq_refl (Qeq_refl 1)).
Defined.

(* ===================================================================== *)
(** ** The slope family on collinear keyframes *)
(* ===================================================================== *)

Lemma similar_from_pointwise (f g : nat -> num) (threshold : Q)
    (l : list nat) :
  (forall i, i ∈ l -> ngeb (nabs (nsub (f i) (g i))) threshold = false) ->
  OptimizeMath.similar_from (f <$> l) (g <$> l) threshold = true.
Proof.
  induction l as [|i l IH]; intros H; [done|].
  cbn [fmap list_fmap OptimizeMath.similar_from].
  rewrite H by left. apply IH. intros j Hj. apply H. by right.
Qed.

Lemma similar_from_lookup (e1 e2 : list num) (threshold : Q) :
  length e1 = length e2 ->
  (forall i x y, e1 !! i = Some x -> e2 !! i = Some y ->
                 ngeb (nabs (nsub x y)) threshold = false) ->
  OptimizeMath.similar_from e1 e2 threshold = true.
Proof.
  revert e2. induction e1 as [|x e1 IH]; intros [|y e2] Hlen H;
    try discriminate Hlen; [done|].
  cbn [OptimizeMath.similar_from].
  rewrite (H 0%nat x y) by done.
  apply IH; [simpl in Hlen; lia|].
  intros i x' y' Hx Hy. by apply (H (S i)).
Qed.

Lemma quotients_equal (p q r s : Q) :
  ~ q == 0 -> ~ s == 0 -> p * s == r * q -> p / q == r / s.
Proof.
  intros Hq Hs H.
  assert (E : p / q - r / s == (p * s - r * q) / (q * s)) by (by field).
  assert (E' : (p * s - r * q) / (q * s) == 0).
  { rewrite H. field. done. }
  rewrite E' in E. lra.
Qed.

Lemma ngeb_zero (x threshold : Q) :
  x == 0 -> 0 < threshold -> ngeb (nabs (Num x)) threshold = false.
Proof.
  intros Hx Ht. cbn [nabs ngeb]. apply Qle_bool_false.
  rewrite Hx. exact Ht.
Qed.

Section Collinear.

Variables pointA pointB pointC : Keyframe.
Variables differenceThreshold timeDifferenceThreshold
  yInterceptDifferenceThreshold : Q.
Variable d : DummyArrays.

Hypothesis arityB : length (values pointB) = length (values pointA).
Hypothesis arityC : length (values pointC) = length (values pointA).
Hypothesis collinear :
  forall i a b c,
    values pointA !! i = Some a ->
    values pointB !! i = Some b ->
    values pointC !! i = Some c ->
    ~ b == a /\ ~ c == a
    /\ (time pointB - time pointA) * (c - a)
       == (time pointC - time pointA) * (b - a).
Hypothesis startsBefore : ~ time pointB == time pointA.
Hypothesis positiveDifference : 0 < differenceThreshold.
Hypothesis positiveIntercept : 0 < yInterceptDifferenceThreshold.

Let n := length (values pointA).

Let middleSlope := OptimizeMath.SlopeOfPoint pointA pointB (dummy0 d).
Let endSlope := OptimizeMath.SlopeOfPoint pointA pointC (dummy1 d).

Lemma collinear_times : ~ time pointC == time pointA \/ n = 0%nat.
Proof.
  destruct (decide (n = 0%nat)) as [|Hn]; [by right|]. left.
  destruct (lookup_lt_is_Some_2 (values pointA) 0) as [a Ha];
    [fold n; lia|].
  destruct (lookup_lt_is_Some_2 (values pointB) 0) as [b Hb];
    [rewrite arityB; fold n; lia|].
  destruct (lookup_lt_is_Some_2 (values pointC) 0) as [c Hc];
    [rewrite arityC; fold n; lia|].
  destruct (collinear 0 a b c Ha Hb Hc) as (Hba & Hca & Hcol).
  intros Ht.
  assert (E : (time pointB - time pointA) * (c - a) == 0).
  { assert (E0 : time pointC - time pointA == 0) by lra.
    rewrite Hcol, E0. ring. }
  apply Qmult_integral in E as [E|E]; lra.
Qed.

Lemma slopes_at (i : nat) a b c :
  values pointA !! i = Some a ->
  values pointB !! i = Some b ->
  values pointC !! i = Some c ->
  middleSlope !! i = Some (Num ((time pointB - time pointA) / (b - a)))
  /\ endSlope !! i = Some (Num ((time pointC - time pointA) / (c - a))).
Proof.
  intros Ha Hb Hc.
  destruct (collinear i a b c Ha Hb Hc) as (Hba & Hca & Hcol).
  assert (HtC : ~ time pointC == time pointA).
  { destruct collinear_times as [H|H]; [done|].
    apply lookup_lt_Some in Ha. fold n in Ha. lia. }
  unfold middleSlope, endSlope. rewrite !SlopeOfPoint_closed.
  rewrite !lookup_app_l
    by (rewrite length_fmap, length_seq; by eapply lookup_lt_Some).
  rewrite !list_lookup_fmap.
  rewrite !lookup_seq_lt by (by eapply lookup_lt_Some).
  cbn [fmap option_fmap option_map Nat.add]. unfold read.
  rewrite Ha, Hb, Hc. cbn [nsub nis0 ndiv].
  assert (E1 : Qeq_bool (b - a) 0 = false).
  { destruct (Qeq_bool (b - a) 0) eqn:E; [|done].
    apply Qeq_bool_iff in E. exfalso. apply Hba. lra. }
  assert (E2 : Qeq_bool (c - a) 0 = false).
  { destruct (Qeq_bool (c - a) 0) eqn:E; [|done].
    apply Qeq_bool_iff in E. exfalso. apply Hca. lra. }
  assert (E3 : Qeq_bool (time pointB - time pointA) 0 = false).
  { destruct (Qeq_bool (time pointB - time pointA) 0) eqn:E; [|done].
    apply Qeq_bool_iff in E. exfalso. apply startsBefore. lra. }
  assert (E4 : Qeq_bool (time pointC - time pointA) 0 = false).
  { destruct (Qeq_bool (time pointC - time pointA) 0) eqn:E; [|done].
    apply Qeq_bool_iff in E. exfalso. apply HtC. lra. }
  rewrite E1, E2, E3, E4. cbn [orb]. done.
Qed.


Hypothesis scratch0 : (length (dummy0 d) <= n)%nat.
Hypothesis scratch1 : (length (dummy1 d) <= n)%nat.
Hypothesis scratch2 : (length (dummy2 d) <= n)%nat.
Hypothesis scratch3 : (length (dummy3 d) <= n)%nat.

Let middleYIntercepts :=
  OptimizeMath.GetYIntercept pointB middleSlope (dummy2 d).
Let endYIntercepts := OptimizeMath.GetYIntercept pointC endSlope (dummy3 d).

Lemma slopes_length : length middleSlope = n /\ length endSlope = n.
Proof.
  unfold middleSlope, endSlope. rewrite !length_SlopeOfPoint.
  rewrite arityB, arityC. fold n. lia.
Qed.

Lemma intercepts_length :
  length middleYIntercepts = n /\ length endYIntercepts = n.
Proof.
  unfold middleYIntercepts, endYIntercepts.
  rewrite !length_GetYIntercept. destruct slopes_length as [-> ->]. lia.
Qed.

Lemma intercepts_at (i : nat) a b c :
  values pointA !! i = Some a ->
  values pointB !! i = Some b ->
  values pointC !! i = Some c ->
  middleYIntercepts !! i
  = Some (Num (time pointB - (time pointB - time pointA) / (b - a) * b))
  /\ endYIntercepts !! i
     = Some (Num (time pointC - (time pointC - time pointA) / (c - a) * c)).
Proof.
  intros Ha Hb Hc.
  destruct (slopes_at i a b c Ha Hb Hc) as [Hm He].
  destruct slopes_length as [Lm Le].
  assert (Hi : (i < n)%nat) by (by apply lookup_lt_Some in Ha).
  unfold middleYIntercepts, endYIntercepts.
  rewrite !GetYIntercept_closed.
  rewrite !lookup_app_l by (rewrite length_fmap, length_seq; lia).
  rewrite !list_lookup_fmap.
  rewrite !lookup_seq_lt by lia.
  cbn [fmap option_fmap option_map Nat.add]. unfold nread, read.
  fold middleSlope endSlope. rewrite Hm, He, Hb, Hc. done.
Qed.

Lemma slopes_similar :
  OptimizeMath.similar_from middleSlope endSlope differenceThreshold = true.
Proof.
  destruct slopes_length as [Lm Le].
  apply similar_from_lookup; [congruence|].
  intros i x y Hx Hy.
  assert (Hi : (i < n)%nat) by (apply lookup_lt_Some in Hx; lia).
  destruct (lookup_lt_is_Some_2 (values pointA) i) as [a Ha]; [done|].
  destruct (lookup_lt_is_Some_2 (values pointB) i) as [b Hb];
    [by rewrite arityB|].
  destruct (lookup_lt_is_Some_2 (values pointC) i) as [c Hc];
    [by rewrite arityC|].
  destruct (slopes_at i a b c Ha Hb Hc) as [Hm He].
  destruct (collinear i a b c Ha Hb Hc) as (Hba & Hca & Hcol).
  rewrite Hm in Hx. rewrite He in Hy.
  injection Hx as <-. injection Hy as <-.
  cbn [nsub]. apply ngeb_zero; [|exact positiveDifference].
  assert (E : (time pointB - time pointA) / (b - a)
              == (time pointC - time pointA) / (c - a)).
  { apply quotients_equal; [lra|lra|exact Hcol]. }
  rewrite E. ring.
Qed.

Lemma intercepts_similar :
  OptimizeMath.similar_from middleYIntercepts endYIntercepts
    yInterceptDifferenceThreshold = true.
Proof.
  destruct intercepts_length as [Lm Le].
  apply similar_from_lookup; [congruence|].
  intros i x y Hx Hy.
  assert (Hi : (i < n)%nat) by (apply lookup_lt_Some in Hx; lia).
  destruct (lookup_lt_is_Some_2 (values pointA) i) as [a Ha]; [done|].
  destruct (lookup_lt_is_Some_2 (values pointB) i) as [b Hb];
    [by rewrite arityB|].
  destruct (lookup_lt_is_Some_2 (values pointC) i) as [c Hc];
    [by rewrite arityC|].
  destruct (intercepts_at i a b c Ha Hb Hc) as [Hm He].
  destruct (collinear i a b c Ha Hb Hc) as (Hba & Hca & Hcol).
  rewrite Hm in Hx. rewrite He in Hy.
  injection Hx as <-. injection Hy as <-.
  cbn [nsub]. apply ngeb_zero; [|exact positiveIntercept].
  assert (E : (time pointB - time pointA) / (b - a)
              == (time pointC - time pointA) / (c - a)).
  { apply quotients_equal; [lra|lra|exact Hcol]. }
  assert (EB : time pointB - (time pointB - time pointA) / (b - a) * b
               == time pointA - (time pointB - time pointA) / (b - a) * a)
    by (field; lra).
  assert (EC : time pointC - (time pointC - time pointA) / (c - a) * c
               == time pointA - (time pointC - time pointA) / (c - a) * a)
    by (field; lra).
  rewrite EB, EC, E. ring.
Qed.

End Collinear.

(** X25.  What the slope family is for: three keyframes of one arity that
    lie on one line in every channel (time against value, the value
    changing from the first keyframe to each of the other two) are
    reported, the middle one as redundant, as soon as the family gets that
    far: equal easing and spline, the three times pairwise more than
    [timeDifferenceThreshold] apart, the last two keyframes not a hold,
    positive thresholds, and scratch arrays no longer than the arity (as
    they are when freshly loaded).  In exact arithmetic. *)
Theorem X25_slope_flags_collinear (pointA pointB pointC : Keyframe)
    (differenceThreshold timeDifferenceThreshold
       yInterceptDifferenceThreshold : Q) (d : DummyArrays) :
  (easing pointA = easing pointB /\ spline pointA = spline pointB
   /\ easing pointB = easing pointC /\ spline pointB = spline pointC) ->
  (length (values pointB) = length (values pointA)
   /\ length (values pointC) = length (values pointA)) ->
  ((length (dummy0 d) <= length (values pointA))%nat
   /\ (length (dummy1 d) <= length (values pointA))%nat
   /\ (length (dummy2 d) <= length (values pointA))%nat
   /\ (length (dummy3 d) <= length (values pointA))%nat) ->
  (0 <= timeDifferenceThreshold
   /\ timeDifferenceThreshold < Qabs (time pointA - time pointC)
   /\ timeDifferenceThreshold < Qabs (time pointA - time pointB)
   /\ timeDifferenceThreshold < Qabs (time pointB - time pointC)) ->
  (Qabs (time pointC - time pointB) <= differenceThreshold
   \/ ~ Forall2 (fun x y => Qabs (x - y) < differenceThreshold)
          (values pointC) (values pointB)) ->
  (0 < differenceThreshold /\ 0 < yInterceptDifferenceThreshold) ->
  (forall i a b c,
      values pointA !! i = Some a ->
      values pointB !! i = Some b ->
      values pointC !! i = Some c ->
      ~ b == a /\ ~ c == a
      /\ (time pointB - time pointA) * (c - a)
         == (time pointC - time pointA) * (b - a)) ->
  exists d',
    optimizeSimilarPointsSlope pointA pointB (Some pointC)
      differenceThreshold timeDifferenceThreshold
      yInterceptDifferenceThreshold d
    = Done (Some pointB) d'.
Proof.
  intros (E1 & E2 & E3 & E4) (LB & LC) (S0 & S1 & S2 & S3)
    (HtT & T1 & T2 & T3) Hhold (HdT & HyT) Hcol.
  assert (Hstart : ~ time pointB == time pointA).
  { intros H. assert (E : time pointA - time pointB == 0) by lra.
    rewrite E in T2. change (Qabs 0) with 0 in T2. lra. }
  unfold optimizeSimilarPointsSlope.
  rewrite (bool_decide_eq_true_2 _ E1), (bool_decide_eq_true_2 _ E2),
    (bool_decide_eq_true_2 _ E3), (bool_decide_eq_true_2 _ E4).
  cbn [negb orb]. unfold OptimizeMath.ComparePointsSlope.
  rewrite (proj2 (Qle_bool_false _ _) T1), (proj2 (Qle_bool_false _ _) T2),
    (proj2 (Qle_bool_false _ _) T3).
  rewrite (bool_decide_eq_true_2 _ (eq_sym E3)),
    (bool_decide_eq_true_2 _ (eq_sym E4)).
  cbn [negb orb].
  assert (Hpause :
    andM (ret (negb (Qle_bool (Qabs (time pointC - time pointB))
                       differenceThreshold)))
      (OptimizeMath.areFloatsSimilar (Num <$> values pointC)
         (Num <$> values pointB) differenceThreshold) d
    = Done false d).
  { unfold andM, bind, ret.
    destruct (Qle_bool (Qabs (time pointC - time pointB))
                differenceThreshold) eqn:E; [done|].
    apply Qle_bool_false in E. destruct Hhold as [H|H]; [lra|].
    cbn [negb]. unfold OptimizeMath.areFloatsSimilar, ret.
    rewrite !length_fmap, LB, LC, Nat.eqb_refl. cbn [negb].
    destruct (OptimizeMath.similar_from _ _ _) eqn:Es; [|done].
    apply similar_from_Forall2 in Es; [done|congruence]. }
  unfold bind at 2. unfold bind at 1. rewrite Hpause. cbv beta iota.
  unfold getDummy, putDummy, bind, andM, bind, ret,
    OptimizeMath.areFloatsSimilar, ret, throw.
  cbv beta iota. cbn [dummy0 dummy1 dummy2 dummy3].
  destruct (intercepts_length pointA pointB pointC d) as [L1 L2];
    try assumption.
  destruct (slopes_length pointA pointB pointC d) as [L3 L4];
    try assumption.
  rewrite L1, L2, Nat.eqb_refl. cbn [negb].
  rewrite (intercepts_similar pointA pointB pointC
             yInterceptDifferenceThreshold d) by assumption.
  rewrite L3, L4, Nat.eqb_refl. cbn [negb].
  rewrite (slopes_similar pointA pointB pointC differenceThreshold d)
    by assumption.
  cbn [OptimizeMath.similar]. eexists. reflexivity.
Qed.

Lemma X25_slope_flags_collinear_witness :
  exists d',
    optimizeSimilarPointsSlope (keyframe [0; 0] 0) (keyframe [1; 2] 1)
      (Some (keyframe [2; 4] 2)) 1 (3 # 100) (1 # 2) freshDummyArrays
    = Done (Some (keyframe [1; 2] 1)) d'.
Proof.
  apply X25_slope_flags_collinear.
  - done.
  - done.
  - simpl. lia.
  - repeat split; try reflexivity. discriminate.
  - left. discriminate.
  - split; reflexivity.
  - intros i a b c Ha Hb Hc.
    destruct i as [|[|i]]; simpl in Ha, Hb, Hc; try discriminate Ha;
      injection Ha as <-; injection Hb as <-; injection Hc as <-;
      repeat split; try reflexivity; discriminate.
Defined.

(* ===================================================================== *)
(** ** More on the scan *)
(* ===================================================================== *)

Section ScanEnds.

Variable settings : Settings.t.

Lemma processPoints_raises_only_mismatch pointA pointB pointC d :
  guarded False (fun _ _ => True)
    (processPoints settings pointA pointB pointC d).
Proof.
  eapply guarded_mono; [apply processPoints_guarded; done|done].
Qed.

Lemma head_delete_interior (points : list Keyframe) (i : nat) :
  (1 <= i)%nat -> head (delete i points) = head points.
Proof. intros Hi. destruct points, i; simpl; try done; lia. Qed.

Lemma last_delete_interior (points : list Keyframe) (i : nat) :
  (i < length points - 1)%nat -> last (delete i points) = last points.
Proof.
  revert i. induction points as [|p points IH]; intros i Hi; [done|].
  destruct points as [|q points]; [simpl in Hi; lia|].
  destruct i as [|i]; [done|].
  change (delete (S i) (p :: q :: points))
    with (p :: delete i (q :: points)).
  destruct (delete i (q :: points)) as [|k l] eqn:E.
  - apply (f_equal length) in E.
    rewrite length_delete in E
      by (apply lookup_lt_is_Some_2; simpl in *; lia).
    simpl in *. lia.
  - rewrite !last_cons_cons, <- E. apply IH. simpl in *. lia.
Qed.

Lemma interior_scan_ends fuel i points d :
  (1 <= i)%nat ->
  (1 <= fuel)%nat ->
  (length points <= fuel + i)%nat ->
  guarded False
    (fun result _ =>
       head result = head points /\ last result = last points
       /\ ((2 <= length points)%nat -> (2 <= length result)%nat))
    (interior_scan settings fuel i points d).
Proof.
  revert i points d.
  induction fuel as [|fuel IH]; intros i points d Hi Hf Hlen; [lia|].
  simpl. destruct (Nat.ltb_spec i (length points - 1)) as [Hlt|Hge].
  - destruct (lookup_lt_is_Some_2 points (i - 1)) as [pointA HA]; [lia|].
    destruct (lookup_lt_is_Some_2 points i) as [pointB HB]; [lia|].
    destruct (lookup_lt_is_Some_2 points (i + 1)) as [pointC HC]; [lia|].
    rewrite HA, HB, HC.
    eapply guarded_bind; [apply processPoints_raises_only_mismatch|].
    intros passed d' _. destruct passed; simpl.
    + apply IH; lia.
    + eapply guarded_mono.
      * apply IH; [lia|lia|]. rewrite length_delete by eauto. lia.
      * intros result _ (Hh & Hl & Hn).
        rewrite head_delete_interior in Hh by done.
        rewrite last_delete_interior in Hl by done.
        rewrite length_delete in Hn by eauto.
        split; [done|]. split; [done|]. intros _. apply Hn. lia.
  - simpl. done.
Qed.

Lemma one_pass_head points d :
  (1 <= length points)%nat ->
  guarded False
    (fun result _ =>
       head result = head points /\ (1 <= length result)%nat
       /\ ((3 <= length points)%nat ->
           last result = last points /\ (2 <= length result)%nat))
    (one_pass settings points d).
Proof.
  intros Hlen. unfold one_pass.
  apply (guarded_bind False
           (fun result _ =>
              head result = head points /\ (1 <= length result)%nat
              /\ ((3 <= length points)%nat -> result = points))).
  - destruct points as [|point0 [|point1 [|point2 rest]]];
      try (simpl; repeat split; try done; lia).
    eapply guarded_bind; [apply processPoints_raises_only_mismatch|].
    intros passed d' _. destruct passed; simpl; repeat split; try done; lia.
  - intros result d' (Hh & Hn & Hsame).
    eapply guarded_mono; [apply interior_scan_ends; lia|].
    intros result' _ (Hh' & Hl' & Hn'). simpl.
    split; [congruence|]. split.
    + destruct result' as [|r rs]; [|simpl; lia].
      destruct result; [simpl in Hn; lia|done].
    + intros H3. rewrite (Hsame H3) in *. split; [done|]. apply Hn'. lia.
Qed.

Lemma pass_loop_head passes points d :
  (1 <= length points)%nat ->
  guarded False
    (fun result _ => head result = head points /\ (1 <= length result)%nat)
    (pass_loop settings passes points d).
Proof.
  revert points d. induction passes as [|passes IH]; intros points d Hlen.
  - simpl. done.
  - simpl. eapply guarded_bind; [by apply one_pass_head|].
    intros result d' (Hh & Hn & _).
    eapply guarded_mono; [by apply IH|].
    intros result' _ [Hh' Hn']. split; [congruence|done].
Qed.

End ScanEnds.

(** X7.  On two or more keyframes, whatever the settings (the master
    switch [optimize] on or off) and the number of passes, [optimizePoints]
    either raises the arity error or returns a non-empty array that starts
    with the first keyframe of the working array, which is the time-sorted
    input when [optimize] is on and the input as given when it is off: with
    [optimize] on the earliest keyframe is never removed. *)
Theorem X7_first_keyframe_survives (settings : Settings.t)
    (points : list Keyframe) (passes : nat) (d : DummyArrays) :
  (2 <= length points)%nat ->
  match optimizePoints settings points passes d with
  | Done (Points result) _ =>
      head result = head (working settings points) /\ result <> []
  | Done Undefined _ => False
  | Raise e _ => mismatch e
  end.
Proof.
  intros Hlen. unfold optimizePoints, working.
  destruct (Settings.optimize settings); cbn [negb];
    [|cbn [ret]; split; [done|]; intros ->; simpl in Hlen; lia].
  rewrite length_sort_by_time.
  destruct (Nat.ltb_spec (length points) 2); [lia|].
  pose proof (pass_loop_head settings passes (sort_by_time points) d) as Hg.
  rewrite length_sort_by_time in Hg. specialize (Hg ltac:(lia)).
  unfold bind.
  destruct (pass_loop settings passes (sort_by_time points) d)
    as [result d'|e d']; simpl in *.
  - destruct Hg as [Hh Hn]. split; [done|].
    intros ->. simpl in Hn. lia.
  - by destruct Hg.
Qed.

Lemma X7_first_keyframe_survives_witness :
  let points := [keyframe [1] 1; keyframe [0] 0; keyframe [2] 2] in
  match optimizePoints Settings.default points 3 freshDummyArrays with
  | Done (Points result) _ =>
      head result = head (working Settings.default points) /\ result <> []
  | Done Undefined _ => False
  | Raise e _ => mismatch e
  end
  /\ match optimizePoints switchedOff points 3 freshDummyArrays with
     | Done (Points result) _ =>
         head result = head (working switchedOff points) /\ result <> []
     | Done Undefined _ => False
     | Raise e _ => mismatch e
     end.
Proof.
  split; apply X7_first_keyframe_survives; simpl; lia.
Defined.

(** X8.  A call of [optimizePoints] with [passes = 1] (the default) on
    three or more keyframes keeps both ends, whatever the settings (the
    master switch [optimize] on or off): unless the arity error is raised,
    the array returned has at least two keyframes, and its first and last
    are the first and last of the working array, which is the time-sorted
    input when [optimize] is on and the input as given when it is off. *)
Theorem X8_single_pass_keeps_both_ends (settings : Settings.t)
    (points : list Keyframe) (d : DummyArrays) :
  (3 <= length points)%nat ->
  match optimizePoints settings points 1 d with
  | Done (Points result) _ =>
      head result = head (working settings points)
      /\ last result = last (working settings points)
      /\ (2 <= length result)%nat
  | Done Undefined _ => False
  | Raise e _ => mismatch e
  end.
Proof.
  intros Hlen. unfold optimizePoints, working.
  destruct (Settings.optimize settings); cbn [negb];
    [|cbn [ret]; repeat split; lia].
  rewrite length_sort_by_time.
  destruct (Nat.ltb_spec (length points) 2); [lia|].
  pose proof (one_pass_head settings (sort_by_time points) d) as Hg.
  rewrite length_sort_by_time in Hg. specialize (Hg ltac:(lia)).
  cbn [pass_loop]. unfold bind, ret.
  destruct (one_pass settings (sort_by_time points) d)
    as [result d'|e d']; simpl in *.
  - destruct Hg as (Hh & _ & H3). destruct (H3 Hlen). done.
  - by destruct Hg.
Qed.

Lemma X8_single_pass_keeps_both_ends_witness :
  let points := [keyframe [1] 1; keyframe [0] 0; keyframe [2] 2] in
  match optimizePoints Settings.default points 1 freshDummyArrays with
  | Done (Points result) _ =>
      head result = head (working Settings.default points)
      /\ last result = last (working Settings.default points)
      /\ (2 <= length result)%nat
  | Done Undefined _ => False
  | Raise e _ => mismatch e
  end
  /\ match optimizePoints switchedOff points 1 freshDummyArrays with
     | Done (Points result) _ =>
         head result = head (working switchedOff points)
         /\ last result = last (working switchedOff points)
         /\ (2 <= length result)%nat
     | Done Undefined _ => False
     | Raise e _ => mismatch e
     end.
Proof.
  split; apply X8_single_pass_keeps_both_ends; simpl; lia.
Defined.

Section NothingActive.

Variable settings : Settings.t.

Hypothesis no_duplicates :
  Settings.dup_active (Settings.optimizeDuplicates settings) = false.
Hypothesis no_similar :
  Settings.sp_active (Settings.optimizeSimilarPoints settings) = false.
Hypothesis no_slope :
  Settings.sl_active (Settings.optimizeSimilarPointsSlope settings) = false.

Lemma processPoints_nothing_active pointA pointB pointC d :
  processPoints settings pointA pointB pointC d = Done true d.
Proof.
  unfold processPoints. by rewrite no_duplicates, no_similar, no_slope.
Qed.

Lemma interior_scan_nothing_active fuel i points d :
  (1 <= fuel)%nat ->
  (length points <= fuel + i)%nat ->
  interior_scan settings fuel i points d = Done points d.
Proof.
  revert i. induction fuel as [|fuel IH]; intros i Hf Hlen; [lia|].
  simpl. destruct (Nat.ltb_spec i (length points - 1)) as [Hlt|Hge]; [|done].
  destruct (lookup_lt_is_Some_2 points (i - 1)) as [pointA HA]; [lia|].
  destruct (lookup_lt_is_Some_2 points i) as [pointB HB]; [lia|].
  destruct (lookup_lt_is_Some_2 points (i + 1)) as [pointC HC]; [lia|].
  rewrite HA, HB, HC. unfold bind.
  rewrite processPoints_nothing_active. simpl. apply IH; lia.
Qed.

Lemma one_pass_nothing_active points d :
  one_pass settings points d = Done points d.
Proof.
  unfold one_pass, bind.
  destruct points as [|point0 [|point1 [|point2 rest]]]; cbn [ret].
  - by apply interior_scan_nothing_active; simpl; lia.
  - by apply interior_scan_nothing_active; simpl; lia.
  - rewrite processPoints_nothing_active. cbn [negb ret].
    by apply interior_scan_nothing_active; simpl; lia.
  - by apply interior_scan_nothing_active; simpl; lia.
Qed.

Lemma pass_loop_nothing_active passes points d :
  pass_loop settings passes points d = Done points d.
Proof.
  induction passes as [|passes IH]; [done|].
  simpl. unfold bind. by rewrite one_pass_nothing_active.
Qed.

End NothingActive.

(** X9.  With none of the three families active nothing is ever removed:
    on two or more keyframes [optimizePoints] returns the working array
    whole (the time-sorted input when the master switch [optimize] is on,
    the input as given when it is off), for every number of passes, raises
    nothing and leaves the scratch arrays alone. *)
Theorem X9_nothing_active_only_sorts (settings : Settings.t)
    (points : list Keyframe) (passes : nat) (d : DummyArrays) :
  Settings.dup_active (Settings.optimizeDuplicates settings) = false ->
  Settings.sp_active (Settings.optimizeSimilarPoints settings) = false ->
  Settings.sl_active (Settings.optimizeSimilarPointsSlope settings) = false ->
  (2 <= length points)%nat ->
  optimizePoints settings points passes d
  = Done (Points (working settings points)) d.
Proof.
  intros Hd Hs Hl Hlen. unfold optimizePoints, working.
  destruct (Settings.optimize settings); cbn [negb]; [|done].
  rewrite length_sort_by_time.
  destruct (Nat.ltb_spec (length points) 2); [lia|].
  unfold bind. by rewrite pass_loop_nothing_active.
Qed.

Lemma X9_nothing_active_only_sorts_witness :
  let points := [keyframe [1] 1; keyframe [0] 0; keyframe [0] (1 # 2)] in
  optimizePoints nothingActive points 2 freshDummyArrays
  = Done (Points (working nothingActive points)) freshDummyArrays.
Proof.
  apply X9_nothing_active_only_sorts; try reflexivity. simpl. lia.
Defined.

Lemma insert_by_time_front a l :
  Forall (by_time a) l -> insert_by_time a l = a :: l.
Proof.
  destruct l as [|b l]; [done|]. intros H. simpl.
  apply Forall_cons in H as [Hab _]. unfold by_time in Hab.
  by rewrite (proj2 (Qle_bool_iff _ _) Hab).
Qed.

Lemma sort_by_time_sorted_id l :
  StronglySorted by_time l -> sort_by_time l = l.
Proof.
  induction 1 as [|a l Hl IH Ha]; [done|].
  simpl. rewrite IH. by apply insert_by_time_front.
Qed.

(** X10.  An input of two or more keyframes that is already in time order
    (equal times allowed) is not rearranged by the sort, so, whatever the
    settings (the master switch [optimize] on or off), what
    [optimizePoints] returns for it is a subsequence of the input itself,
    unless the arity error is raised.  (Fewer than two keyframes are left
    out: for them the call returns nothing when [optimize] is on, C2.) *)
Theorem X10_sorted_input_subsequence (settings : Settings.t)
    (points : list Keyframe) (passes : nat) (d : DummyArrays) :
  StronglySorted by_time points ->
  (2 <= length points)%nat ->
  sort_by_time points = points
  /\ match optimizePoints settings points passes d with
     | Done (Points result) _ => result `sublist_of` points
     | Done Undefined _ => False
     | Raise e _ => mismatch e
     end.
Proof.
  intros Hsorted Hlen.
  pose proof (sort_by_time_sorted_id points Hsorted) as Hid.
  split; [exact Hid|].
  unfold optimizePoints.
  destruct (Settings.optimize settings); cbn [negb]; [|by cbn [ret]].
  rewrite Hid.
  destruct (Nat.ltb_spec (length points) 2); [lia|].
  pose proof (pass_loop_guarded settings False passes points d) as Hg.
  unfold bind.
  destruct (pass_loop settings passes points d) as [result d'|e d'];
    simpl in *.
  - by destruct Hg.
  - by destruct Hg.
Qed.

Lemma X10_sorted_input_subsequence_witness :
  let points := [keyframe [0] 0; keyframe [1] 1; keyframe [2] 1;
                 keyframe [3] 2] in
  sort_by_time points = points
  /\ match optimizePoints Settings.default points 1 freshDummyArrays with
     | Done (Points result) _ => result `sublist_of` points
     | Done Undefined _ => False
     | Raise e _ => mismatch e
     end.
Proof.
  apply X10_sorted_input_subsequence; [|simpl; lia].
  repeat constructor; discriminate.
Defined.

(** X11.  Keyframes that all have the same number of value channels never
    make the optimizer raise, provided the four scratch arrays have one
    length when the call starts; and they have one length again when it
    ends, so the same holds for the next call.  Freshly loaded, the arrays
    are empty. *)
Theorem X11_uniform_arity_never_raises (settings : Settings.t)
    (points : list Keyframe) (passes : nat) (d : DummyArrays) :
  uniform_arity points ->
  balanced d ->
  Settings.optimize settings = true ->
  (2 <= length points)%nat ->
  balanced freshDummyArrays
  /\ exists result d',
       optimizePoints settings points passes d = Done (Points result) d'
       /\ balanced d'.
Proof.
  intros Hu Hb Hopt Hlen. split; [done|].
  unfold optimizePoints. rewrite Hopt. cbn [negb].
  rewrite length_sort_by_time.
  destruct (Nat.ltb_spec (length points) 2); [lia|].
  pose proof (pass_loop_guarded settings True passes (sort_by_time points) d)
    as Hg.
  unfold bind.
  destruct (pass_loop settings passes (sort_by_time points) d)
    as [result d'|e d']; simpl in *.
  - exists result, d'. split; [done|]. apply Hg; [|done].
    intros _. split; [|done].
    intros a b Ha Hb'. apply Hu; by rewrite <- sort_by_time_perm.
  - exfalso. apply Hg; [|done]. intros _. split; [|done].
    intros a b Ha Hb'. apply Hu; by rewrite <- sort_by_time_perm.
Qed.

Lemma X11_uniform_arity_never_raises_witness :
  exists result d',
    optimizePoints Settings.default
      [keyframe [0; 0] 0; keyframe [1; 0] (1 # 2); keyframe [0; 0] 1] 2
      freshDummyArrays
    = Done (Points result) d'
    /\ balanced d'.
Proof.
  apply (X11_uniform_arity_never_raises Settings.default
           [keyframe [0; 0] 0; keyframe [1; 0] (1 # 2); keyframe [0; 0] 1]
           2 freshDummyArrays).
  - intros a b Ha Hb.
    repeat (apply elem_of_cons in Ha as [->|Ha]);
      repeat (apply elem_of_cons in Hb as [->|Hb]);
      try reflexivity; try (by apply elem_of_nil in Ha);
      by apply elem_of_nil in Hb.
  - done.
  - reflexivity.
  - simpl. lia.
Defined.

(** X12.  The sort of [optimizePoints] is stable: the keyframes at any one
    time come out in the order they went in (and the whole comes out in
    ascending time). *)
Theorem X12_sort_is_stable (points : list Keyframe) (t : Q) :
  List.filter (fun k => Qeq_bool (time k) t) (sort_by_time points)
  = List.filter (fun k => Qeq_bool (time k) t) points
  /\ StronglySorted by_time (sort_by_time points).
Proof.
  split; [|apply sort_by_time_sorted].
  assert (Hins : forall a l,
            List.filter (fun k => Qeq_bool (time k) t) (insert_by_time a l)
            = List.filter (fun k => Qeq_bool (time k) t) (a :: l)).
  { intros a l. induction l as [|b l IH]; [done|].
    cbn [insert_by_time].
    destruct (Qle_bool (time a) (time b)) eqn:E; [done|].
    apply Qle_bool_false in E.
    cbn [List.filter] in *. rewrite IH.
    destruct (Qeq_bool (time b) t) eqn:Hbt;
      destruct (Qeq_bool (time a) t) eqn:Hat; try done.
    apply Qeq_bool_iff in Hbt, Hat. lra. }
  induction points as [|a points IH]; [done|].
  cbn [sort_by_time]. rewrite Hins. cbn [List.filter]. by rewrite IH.
Qed.

Lemma pass_loop_S (settings : Settings.t) (passes : nat) points d :
  pass_loop settings (S passes) points d
  = match one_pass settings points d with
    | Done points' d' => pass_loop settings passes points' d'
    | Raise e d' => Raise e d'
    end.
Proof. reflexivity. Qed.

Lemma pass_loop_snoc (settings : Settings.t) (passes : nat) :
  forall points d,
    pass_loop settings (S passes) points d
    = match pass_loop settings passes points d with
      | Done points' d' => one_pass settings points' d'
      | Raise e d' => Raise e d'
      end.
Proof.
  induction passes as [|passes IH]; intros points d.
  - rewrite pass_loop_S. cbn [pass_loop]. unfold ret.
    by destruct (one_pass settings points d).
  - rewrite pass_loop_S. rewrite (pass_loop_S settings passes points d).
    destruct (one_pass settings points d) as [points' d'|e d']; [|done].
    apply IH.
Qed.

(** X26.  A further pass only removes: if [optimizePoints] returns an
    array after some number of passes, then with one pass more it returns
    a subsequence of that array, or raises the arity error. *)
Theorem X26_more_passes_only_remove (settings : Settings.t)
    (points result : list Keyframe) (passes : nat) (d d1 : DummyArrays) :
  Settings.optimize settings = true ->
  optimizePoints settings points passes d = Done (Points result) d1 ->
  match optimizePoints settings points (S passes) d with
  | Done (Points result') _ => result' `sublist_of` result
  | Done Undefined _ => False
  | Raise e _ => mismatch e
  end.
Proof.
  unfold optimizePoints. intros Hopt. rewrite Hopt. cbn [negb].
  destruct (length (sort_by_time points) <? 2)%nat; [discriminate|].
  unfold bind. rewrite pass_loop_snoc.
  destruct (pass_loop settings passes (sort_by_time points) d)
    as [r d'|e d']; [|discriminate].
  intros [= -> ->].
  pose proof (one_pass_guarded settings False result d1) as Hg.
  destruct (one_pass settings result d1) as [r' d'|e d']; simpl in *.
  - by destruct Hg.
  - by destruct Hg.
Qed.

Lemma X26_more_passes_only_remove_witness :
  match optimizePoints onlyDuplicates
          [keyframe [0] 0; keyframe [0] 1; keyframe [0] 2; keyframe [1] 3]
          2 freshDummyArrays with
  | Done (Points result') _ =>
      result' `sublist_of` [keyframe [0] 0; keyframe [0] 1; keyframe [1] 3]
  | Done Undefined _ => False
  | Raise e _ => mismatch e
  end.
Proof.
  apply (X26_more_passes_only_remove onlyDuplicates
           [keyframe [0] 0; keyframe [0] 1; keyframe [0] 2; keyframe [1] 3]
           [keyframe [0] 0; keyframe [0] 1; keyframe [1] 3] 1
           freshDummyArrays freshDummyArrays).
  - reflexivity.
  - vm_compute. reflexivity.
Defined.

Section IgnoredThresholds.

Variables settings : Settings.t.
Variables differenceThreshold timeDifferenceThreshold : Q.

Lemma processPoints_ignores pointA pointB pointC d :
  processPoints (withSlopeThresholds settings differenceThreshold
                   timeDifferenceThreshold) pointA pointB pointC d
  = processPoints settings pointA pointB pointC d.
Proof. reflexivity. Qed.

Lemma interior_scan_ignores fuel :
  forall i points d,
    interior_scan (withSlopeThresholds settings differenceThreshold
                     timeDifferenceThreshold) fuel i points d
    = interior_scan settings fuel i points d.
Proof.
  induction fuel as [|fuel IH]; intros i points d; [done|].
  cbn [interior_scan].
  destruct (i <? length points - 1)%nat; [|done].
  destruct (points !! (i - 1)%nat) as [pointA|]; [|done].
  destruct (points !! i) as [pointB|]; [|done].
  destruct (points !! (i + 1)%nat) as [pointC|]; [|done].
  unfold bind. rewrite processPoints_ignores.
  destruct (processPoints settings pointA pointB (Some pointC) d)
    as [[] d'|e d']; cbn [negb]; [apply IH|apply IH|done].
Qed.

Lemma one_pass_ignores points d :
  one_pass (withSlopeThresholds settings differenceThreshold
              timeDifferenceThreshold) points d
  = one_pass settings points d.
Proof.
  unfold one_pass, bind.
  destruct points as [|point0 [|point1 [|point2 rest]]]; cbn [ret];
    try apply interior_scan_ignores.
  rewrite processPoints_ignores.
  destruct (processPoints settings point0 point1 None d) as [[] d'|e d'];
    cbn [negb ret]; try done; apply interior_scan_ignores.
Qed.

Lemma pass_loop_ignores passes :
  forall points d,
    pass_loop (withSlopeThresholds settings differenceThreshold
                 timeDifferenceThreshold) passes points d
    = pass_loop settings passes points d.
Proof.
  induction passes as [|passes IH]; intros points d; [done|].
  cbn [pass_loop]. unfold bind. rewrite one_pass_ignores.
  destruct (one_pass settings points d) as [points' d'|e d']; [apply IH|done].
Qed.

End IgnoredThresholds.

(** X27.  [optimizePoints] never reads the slope family's own
    [differenceThreshold] and [timeDifferenceThreshold]: it hands the
    slope family the two thresholds of the near-duplicate family instead.
    Whatever the two settings are changed to, the outcome is the same. *)
Theorem X27_slope_thresholds_are_ignored (settings : Settings.t)
    (differenceThreshold timeDifferenceThreshold : Q)
    (points : list Keyframe) (passes : nat) (d : DummyArrays) :
  optimizePoints (withSlopeThresholds settings differenceThreshold
                    timeDifferenceThreshold) points passes d
  = optimizePoints settings points passes d.
Proof.
  unfold optimizePoints.
  change (Settings.optimize (withSlopeThresholds settings differenceThreshold
                               timeDifferenceThreshold))
    with (Settings.optimize settings).
  destruct (Settings.optimize settings); cbn [negb]; [|done].
  destruct (length (sort_by_time points) <? 2)%nat; [done|].
  unfold bind. by rewrite pass_loop_ignores.
Qed.

(* ===================================================================== *)
(** ** More on the table walks *)
(* ===================================================================== *)

Lemma solve_apply_loop (y : Q) (rest : list change) :
  forall (m : Q) (l c : change),
    fst l <= y ->
    0 < snd l ->
    fst l < fst c ->
    increasing_from (fst c) rest ->
    positive_rates (c :: rest) ->
    m <= apply_loop y m (Some l) c rest
    /\ solve_loop (apply_loop y m (Some l) c rest) m (Some l) c rest == y.
Proof.
  induction rest as [|n rest IH]; intros m l c Hy Hl Hlc Hinc Hpos;
    cbn [solve_loop apply_loop];
    destruct (Qle_bool (fst c) y) eqn:E.
  - apply Qle_bool_iff in E.
    apply Forall_cons in Hpos as [Hc _].
    set (m' := m + snd l * (fst c - fst l)).
    assert (Hm' : m <= m').
    { unfold m'. assert (0 <= snd l * (fst c - fst l)); [|lra].
      apply Qmult_le_0_compat; lra. }
    assert (Hx : m' <= m' + snd c * (y - fst c)).
    { assert (0 <= snd c * (y - fst c)); [|lra].
      apply Qmult_le_0_compat; lra. }
    rewrite (proj2 (Qle_bool_iff _ _) Hx). cbn [negb].
    split; [lra|]. field. lra.
  - apply Qle_bool_false in E.
    set (m' := m + snd l * (fst c - fst l)).
    assert (Hx0 : m <= m + snd l * (y - fst l)).
    { assert (0 <= snd l * (y - fst l)); [|lra].
      apply Qmult_le_0_compat; lra. }
    assert (Hx1 : m + snd l * (y - fst l) < m').
    { unfold m'. assert (snd l * (y - fst l) < snd l * (fst c - fst l));
        [|lra].
      apply Qmult_lt_l; lra. }
    rewrite (proj2 (Qle_bool_false _ _) Hx1). cbn [negb].
    split; [lra|]. field. lra.
  - apply Qle_bool_iff in E. destruct Hinc as [Hcn Hinc].
    apply Forall_cons in Hpos as [Hc Hpos].
    set (m' := m + snd l * (fst c - fst l)).
    assert (Hm' : m <= m').
    { unfold m'. assert (0 <= snd l * (fst c - fst l)); [|lra].
      apply Qmult_le_0_compat; lra. }
    destruct (IH m' c n E Hc Hcn Hinc Hpos) as [Hx Hsolve].
    rewrite (proj2 (Qle_bool_iff _ _) Hx). cbn [negb].
    split; [lra|exact Hsolve].
  - apply Qle_bool_false in E.
    set (m' := m + snd l * (fst c - fst l)).
    assert (Hx0 : m <= m + snd l * (y - fst l)).
    { assert (0 <= snd l * (y - fst l)); [|lra].
      apply Qmult_le_0_compat; lra. }
    assert (Hx1 : m + snd l * (y - fst l) < m').
    { unfold m'. assert (snd l * (y - fst l) < snd l * (fst c - fst l));
        [|lra].
      apply Qmult_lt_l; lra. }
    rewrite (proj2 (Qle_bool_false _ _) Hx1). cbn [negb].
    split; [lra|]. field. lra.
Qed.

(** X13.  The round trip the other way: for a table with strictly
    increasing breakpoints and positive rates, solving after applying
    gives every value back, in exact arithmetic: with offset 0,
    [normalizeWithChanges] undoes [remapEnd]. *)
Theorem X13_solve_after_apply (y : Q) (changes : list change) :
  increasing changes ->
  positive_rates changes ->
  solve (apply y changes) changes == y.
Proof.
  destruct changes as [|c rest]; [reflexivity|].
  intros Hinc Hpos. unfold apply, solve.
  pose proof Hpos as Hpos'. apply Forall_cons in Hpos' as [Hc Hrest].
  destruct rest as [|n rest]; cbn [solve_loop apply_loop];
    destruct (Qle_bool (fst c) y) eqn:E.
  - apply Qle_bool_iff in E.
    assert (Hx : 0 + fst c <= 0 + fst c + snd c * (y - fst c)).
    { assert (0 <= snd c * (y - fst c)); [|lra].
      apply Qmult_le_0_compat; lra. }
    rewrite (proj2 (Qle_bool_iff _ _) Hx). cbn [negb]. field. lra.
  - apply Qle_bool_false in E.
    assert (Hx : y < 0 + fst c) by lra.
    rewrite (proj2 (Qle_bool_false _ _) Hx). reflexivity.
  - apply Qle_bool_iff in E. destruct Hinc as [Hcn Hinc].
    destruct (solve_apply_loop y rest (0 + fst c) c n E Hc Hcn Hinc Hrest)
      as [Hx Hsolve].
    rewrite (proj2 (Qle_bool_iff _ _) Hx). cbn [negb]. exact Hsolve.
  - apply Qle_bool_false in E.
    assert (Hx : y < 0 + fst c) by lra.
    rewrite (proj2 (Qle_bool_false _ _) Hx). reflexivity.
Qed.

Lemma X13_solve_after_apply_witness :
  solve (apply 4 [(1, 2); (3, 1)]) [(1, 2); (3, 1)] == 4.
Proof.
  apply X13_solve_after_apply.
  - simpl. split; [reflexivity|exact I].
  - repeat constructor.
Defined.

(* ===================================================================== *)
(** ** More on the remapper's processes *)
(* ===================================================================== *)

Lemma truthy_demote (ids : list Q) :
  Forall (fun id => ~ id == 0) ids ->
  truthy (Some (LightRemapper.demote ids)) = true.
Proof.
  destruct ids as [|id [|id' ids]]; intros H; try reflexivity.
  apply Forall_cons in H as [H _]. simpl.
  destruct (Qeq_bool id 0) eqn:E; [|done].
  apply Qeq_bool_iff in E. done.
Qed.

(** X14.  [normalizeLinear] does what it is for: a sequence of light IDs
    that starts at [start] and advances in multiples of [step] comes out
    as [start], advancing in the same multiples of 1 (for instance
    [1, 3, 5] with step 2 as [1, 2, 3]), and IDs below [start] are left as
    they are.  In exact arithmetic. *)
Theorem X14_normalizeLinear_progression (step start : Q) (ks : list Q)
    (x : AbstractEvent) :
  ~ step == 0 ->
  Forall (fun k => 0 <= k * step) ks ->
  lightID x = Some (Sequence ((fun k => start + k * step) <$> ks)) ->
  (exists normalized,
      lightID (LightRemapper.normalizeLinear step start x) = Some normalized
      /\ Forall2 Qeq (LightRemapper.promote normalized)
           ((fun k => start + k) <$> ks))
  /\ (forall id, id < start -> solve id [(start, step)] = id).
Proof.
  intros Hstep Hks Hl. split.
  - unfold LightRemapper.normalizeLinear. rewrite Hl. cbn [truthy].
    cbn [lightID set_lightID]. eexists. split; [reflexivity|].
    unfold LightRemapper.complexifyLightIDs. rewrite promote_demote.
    cbn [LightRemapper.promote]. unfold solveLightMap.
    rewrite <- list_fmap_compose.
    clear Hl.
    induction Hks as [|k ks Hk Hks IH]; cbn [fmap list_fmap]; constructor;
      [|exact IH].
    cbn [compose solve solve_loop fst snd].
    assert (Hle : 0 + start <= start + k * step) by lra.
    rewrite (proj2 (Qle_bool_iff _ _) Hle). cbn [negb].
    field. exact Hstep.
  - intros id Hid. cbn [solve solve_loop fst snd].
    assert (Hlt : id < 0 + start) by lra.
    by rewrite (proj2 (Qle_bool_false _ _) Hlt).
Qed.

Lemma X14_normalizeLinear_progression_witness :
  exists normalized,
    lightID (LightRemapper.normalizeLinear 2 1
               (mkEvent 0 None
                  (Some (Sequence ((fun k => 1 + k * 2) <$> [0; 1; 2])))))
    = Some normalized
    /\ Forall2 Qeq (LightRemapper.promote normalized)
         ((fun k => 1 + k) <$> [0; 1; 2]).
Proof.
  refine (proj1 (X14_normalizeLinear_progression 2 1 [0; 1; 2]
                   (mkEvent 0 None
                      (Some (Sequence ((fun k => 1 + k * 2) <$> [0; 1; 2]))))
                   _ _ eq_refl)).
  - discriminate.
  - repeat constructor; discriminate.
Defined.

(** X15.  Both table walks leave a value below the first breakpoint as it
    is, whatever the rest of the table. *)
Theorem X15_below_first_breakpoint (x : Q) (c : change) (rest : list change) :
  x < fst c ->
  solve x (c :: rest) = x /\ apply x (c :: rest) = x.
Proof.
  intros Hx. unfold solve, apply.
  destruct rest; cbn [solve_loop apply_loop];
    rewrite (proj2 (Qle_bool_false (fst c) x) Hx);
    assert (Hx' : x < 0 + fst c) by lra;
    by rewrite (proj2 (Qle_bool_false _ _) Hx').
Qed.

Lemma X15_below_first_breakpoint_witness :
  solve (1 # 2) [(1, 2); (3, 1)] = 1 # 2
  /\ apply (1 # 2) [(1, 2); (3, 1)] = 1 # 2.
Proof. apply X15_below_first_breakpoint. reflexivity. Defined.

(** X16.  Two offsets applied one after the other add up, as long as the
    first does not turn the light ID into the bare number 0 (which the
    second would take for an absent ID). *)
Theorem X16_addToEnd_composes (a b : Q) (x : AbstractEvent)
    (current : LightID) :
  lightID x = Some current ->
  truthy (Some current) = true ->
  truthy (lightID (LightRemapper.addToEnd a None x)) = true ->
  exists remapped,
    lightID (LightRemapper.addToEnd b None (LightRemapper.addToEnd a None x))
    = Some remapped
    /\ LightRemapper.promote remapped
       = (fun i => i + a + b) <$> LightRemapper.promote current.
Proof.
  intros Hl Ht. unfold LightRemapper.addToEnd at 1 3.
  rewrite Hl, Ht. cbn [lightID set_lightID]. intros Ht'.
  unfold LightRemapper.addToEnd. cbn [lightID set_lightID]. rewrite Ht'.
  cbn [lightID set_lightID]. eexists. split; [reflexivity|].
  unfold LightRemapper.complexifyLightIDs. rewrite !promote_demote.
  by rewrite <- list_fmap_compose.
Qed.

Lemma X16_addToEnd_composes_witness :
  exists remapped,
    lightID (LightRemapper.addToEnd 3 None
               (LightRemapper.addToEnd 10 None
                  (mkEvent 0 None (Some (Scalar 7)))))
    = Some remapped
    /\ LightRemapper.promote remapped = [7 + 10 + 3].
Proof.
  exact (X16_addToEnd_composes 10 3 (mkEvent 0 None (Some (Scalar 7)))
           (Scalar 7) eq_refl eq_refl eq_refl).
Defined.

(** X17.  An event whose [lightID] does not pass the presence test (absent,
    or the bare number 0) is left exactly as it is by [normalizeLinear],
    [normalizeWithChanges], [addToEnd], [remapEnd] and by [appendIDs]
    without [initialize].  So once a process has produced the bare number
    0, as [addToEnd] does with the offset that cancels the ID, every later
    one of these processes skips the event. *)
Theorem X17_falsy_lightID_is_skipped (x : AbstractEvent)
    (step start offset : Q) (endStep : option Q) (map : list change)
    (appended : LightID) :
  truthy (lightID x) = false ->
  LightRemapper.normalizeLinear step start x = x
  /\ LightRemapper.normalizeWithChanges map x = x
  /\ LightRemapper.addToEnd offset endStep x = x
  /\ LightRemapper.remapEnd map offset x = x
  /\ LightRemapper.appendIDs appended false x = x
  /\ (forall y id,
        lightID y = Some (Scalar id) -> ~ id == 0 ->
        truthy (lightID (LightRemapper.addToEnd (- id) None y)) = false).
Proof.
  intros Hf.
  assert (Hskip :
    LightRemapper.normalizeLinear step start x = x
    /\ LightRemapper.normalizeWithChanges map x = x
    /\ LightRemapper.addToEnd offset endStep x = x
    /\ LightRemapper.remapEnd map offset x = x
    /\ LightRemapper.appendIDs appended false x = x).
  { unfold LightRemapper.normalizeLinear,
      LightRemapper.normalizeWithChanges, LightRemapper.addToEnd,
      LightRemapper.remapEnd, LightRemapper.appendIDs.
    rewrite Hf. cbn [negb].
    destruct (lightID x) as [current|] eqn:E; [rewrite Hf|]; done. }
  destruct Hskip as (H1 & H2 & H3 & H4 & H5).
  repeat (split; [assumption|]).
  intros y id Hy Hid. unfold LightRemapper.addToEnd. rewrite Hy.
  cbn [truthy].
  destruct (Qeq_bool id 0) eqn:E0; [by apply Qeq_bool_iff in E0|].
  cbn [negb lightID set_lightID LightRemapper.complexifyLightIDs
         LightRemapper.promote LightRemapper.demote fmap list_fmap truthy].
  assert (E1 : Qeq_bool (id + - id) 0 = true) by (apply Qeq_bool_iff; ring).
  by rewrite E1.
Qed.

Lemma X17_falsy_lightID_is_skipped_witness :
  LightRemapper.addToEnd 10 (Some 2) (mkEvent 0 None (Some (Scalar 0)))
  = mkEvent 0 None (Some (Scalar 0))
  /\ LightRemapper.normalizeLinear 2 1 (mkEvent 0 None None)
     = mkEvent 0 None None.
Proof.
  destruct (X17_falsy_lightID_is_skipped (mkEvent 0 None (Some (Scalar 0)))
              2 1 10 (Some 2) [] (Scalar 1) eq_refl)
    as (_ & _ & H1 & _).
  destruct (X17_falsy_lightID_is_skipped (mkEvent 0 None None)
              2 1 10 (Some 2) [] (Scalar 1) eq_refl)
    as (H2 & _).
  split; [exact H1|exact H2].
Defined.

(** X18.  With start 1, [normalizeLinear] undoes the step of [addToEnd]:
    for a positive step and light IDs from 1 upwards, spreading the IDs
    out with [addToEnd(0, step)] and normalizing them with
    [normalizeLinear(step)] gives the IDs back, in exact arithmetic. *)
Theorem X18_normalizeLinear_undoes_step (step : Q) (x : AbstractEvent)
    (current : LightID) :
  0 < step ->
  lightID x = Some current ->
  truthy (Some current) = true ->
  Forall (fun i => 1 <= i) (LightRemapper.promote current) ->
  exists restored,
    lightID (LightRemapper.normalizeLinear step 1
               (LightRemapper.addToEnd 0 (Some step) x))
    = Some restored
    /\ Forall2 Qeq (LightRemapper.promote restored)
         (LightRemapper.promote current).
Proof.
  intros Hstep Hl Ht Hids.
  unfold LightRemapper.addToEnd. rewrite Hl, Ht.
  unfold truthy_number.
  assert (E : Qeq_bool step 0 = false).
  { destruct (Qeq_bool step 0) eqn:E; [|done].
    apply Qeq_bool_iff in E. lra. }
  rewrite E. cbn [negb].
  set (spread := (fun i => (i - 1) * step + 1 + 0)
                   <$> LightRemapper.promote current).
  assert (Hspread : Forall (fun j => 1 <= j) spread).
  { unfold spread. apply Forall_fmap.
    eapply Forall_impl; [exact Hids|]. intros i Hi.
    unfold compose. cbv beta in *.
    assert (0 <= (i - 1) * step); [|lra].
    apply Qmult_le_0_compat; lra. }
  unfold LightRemapper.normalizeLinear, LightRemapper.complexifyLightIDs.
  cbn [lightID set_lightID]. fold spread.
  rewrite truthy_demote
    by (eapply Forall_impl; [exact Hspread|]; intros j Hj H0;
        cbv beta in Hj; lra).
  cbn [lightID set_lightID]. eexists. split; [reflexivity|].
  rewrite !promote_demote. unfold spread, solveLightMap.
  rewrite <- list_fmap_compose.
  clear Hl Ht spread Hspread.
  induction Hids as [|i ids Hi Hids IH]; cbn [fmap list_fmap]; constructor;
    [|exact IH].
  cbn [compose solve solve_loop fst snd].
  assert (Hle : 0 + 1 <= (i - 1) * step + 1 + 0).
  { assert (0 <= (i - 1) * step); [|lra].
    apply Qmult_le_0_compat; lra. }
  rewrite (proj2 (Qle_bool_iff _ _) Hle). cbn [negb]. field. lra.
Qed.

Lemma X18_normalizeLinear_undoes_step_witness :
  exists restored,
    lightID (LightRemapper.normalizeLinear 2 1
               (LightRemapper.addToEnd 0 (Some 2)
                  (mkEvent 0 None (Some (Sequence [1; 2; 3])))))
    = Some restored
    /\ Forall2 Qeq (LightRemapper.promote restored) [1; 2; 3].
Proof.
  apply (X18_normalizeLinear_undoes_step 2
           (mkEvent 0 None (Some (Sequence [1; 2; 3]))) (Sequence [1; 2; 3])).
  - reflexivity.
  - reflexivity.
  - reflexivity.
  - repeat constructor; discriminate.
Defined.

(** X19.  [appendIDs] puts the new IDs behind the ones the event has.  An
    event whose [lightID] does not pass the presence test is left alone
    without [initialize]; with it, the event gets the new IDs only, and a
    bare 0 it carried is dropped. *)
Theorem X19_appendIDs_concatenates (appended : LightID) (initialize : bool)
    (x : AbstractEvent) :
  (forall current,
      lightID x = Some current -> truthy (Some current) = true ->
      lightID (LightRemapper.appendIDs appended initialize x)
      = Some (LightRemapper.demote
                (LightRemapper.promote current
                   ++ LightRemapper.promote appended)))
  /\ (truthy (lightID x) = false ->
      LightRemapper.appendIDs appended false x = x
      /\ lightID (LightRemapper.appendIDs appended true x)
         = Some (LightRemapper.demote (LightRemapper.promote appended))).
Proof.
  unfold LightRemapper.appendIDs, LightRemapper.complexifyLightIDs. split.
  - intros current Hl Ht. rewrite Hl, Ht. cbn [negb]. reflexivity.
  - intros Hf. rewrite Hf. cbn [negb]. split; reflexivity.
Qed.

Lemma X19_appendIDs_concatenates_witness :
  lightID (LightRemapper.appendIDs (Sequence [5; 6]) false
             (mkEvent 0 None (Some (Scalar 7))))
  = Some (Sequence [7; 5; 6])
  /\ lightID (LightRemapper.appendIDs (Scalar 5) true
                (mkEvent 0 None (Some (Scalar 0))))
     = Some (Scalar 5).
Proof.
  split.
  - exact (proj1 (X19_appendIDs_concatenates (Sequence [5; 6]) false
                    (mkEvent 0 None (Some (Scalar 7))))
             (Scalar 7) eq_refl eq_refl).
  - exact (proj2 (proj2 (X19_appendIDs_concatenates (Scalar 5) true
                           (mkEvent 0 None (Some (Scalar 0)))) eq_refl)).
Defined.

(** X20.  The processes that keep the number of IDs keep the shape: on an
    event whose [lightID] passes the presence test, [normalizeLinear],
    [normalizeWithChanges], [addToEnd] and [remapEnd] write back as many
    IDs as there were, and a bare number stays a bare number. *)
Theorem X20_shape_is_kept (x : AbstractEvent) (current : LightID)
    (step start offset : Q) (endStep : option Q) (map : list change) :
  lightID x = Some current ->
  truthy (Some current) = true ->
  Forall
    (fun process : LightRemapper.Process =>
       exists written,
         lightID (process x) = Some written
         /\ length (LightRemapper.promote written)
            = length (LightRemapper.promote current)
         /\ (forall id, current = Scalar id ->
                        exists id', written = Scalar id'))
    [LightRemapper.normalizeLinear step start;
     LightRemapper.normalizeWithChanges map;
     LightRemapper.addToEnd offset endStep;
     LightRemapper.remapEnd map offset].
Proof.
  intros Hl Ht.
  unfold LightRemapper.normalizeLinear, LightRemapper.normalizeWithChanges,
    LightRemapper.addToEnd, LightRemapper.remapEnd,
    LightRemapper.complexifyLightIDs.
  repeat constructor; rewrite Hl, Ht; cbn [lightID set_lightID];
    eexists; (split; [reflexivity|]); rewrite promote_demote;
    unfold solveLightMap, applyLightMap; rewrite length_fmap;
    (split; [reflexivity|]); intros id ->; eexists; reflexivity.
Qed.

Lemma X20_shape_is_kept_witness :
  Forall
    (fun process : LightRemapper.Process =>
       exists written,
         lightID (process (mkEvent 0 None (Some (Scalar 7)))) = Some written
         /\ length (LightRemapper.promote written)
            = length (LightRemapper.promote (Scalar 7))
         /\ (forall id, Scalar 7 = Scalar id ->
                        exists id', written = Scalar id'))
    [LightRemapper.normalizeLinear 2 1;
     LightRemapper.normalizeWithChanges [(1, 2); (3, 1)];
     LightRemapper.addToEnd 10 (Some 2);
     LightRemapper.remapEnd [(1, 2); (3, 1)] 10].
Proof.
  exact (X20_shape_is_kept (mkEvent 0 None (Some (Scalar 7))) (Scalar 7)
           2 1 10 (Some 2) [(1, 2); (3, 1)] eq_refl eq_refl).
Defined.

(* ===================================================================== *)
(** ** [initIDs] *)
(* ===================================================================== *)

Lemma spread_done (i stop : Q) :
  (Qfloor (stop - i) + 1 <= 0)%Z -> stop < i.
Proof.
  intros H. pose proof (Qlt_floor (stop - i)) as Hlt.
  assert (inject_Z (Qfloor (stop - i) + 1) <= 0).
  { change 0 with (inject_Z 0). by rewrite <- Zle_Qle. }
  lra.
Qed.

Lemma spread_next (i stop : Q) :
  i <= stop -> (Qfloor (stop - (i + 1)) + 1 <= Qfloor (stop - i))%Z.
Proof.
  intros Hi. pose proof (Qfloor_le (stop - (i + 1))) as Hle.
  rewrite <- (Qfloor_Z (Qfloor (stop - (i + 1)) + 1)).
  apply Qfloor_resp_le. rewrite inject_Z_plus. change (inject_Z 1) with 1.
  lra.
Qed.

Lemma spread_loop_fuel (stop : Q) (fuel1 : nat) :
  forall (fuel2 : nat) (i : Q),
    (Qfloor (stop - i) + 1 <= Z.of_nat fuel1)%Z ->
    (Qfloor (stop - i) + 1 <= Z.of_nat fuel2)%Z ->
    spread_loop fuel1 i stop = spread_loop fuel2 i stop.
Proof.
  induction fuel1 as [|fuel1 IH]; intros fuel2 i H1 H2.
  - apply spread_done in H1. destruct fuel2; [done|]. simpl.
    by rewrite (proj2 (Qle_bool_false _ _) H1).
  - destruct fuel2 as [|fuel2].
    + apply spread_done in H2. simpl.
      by rewrite (proj2 (Qle_bool_false _ _) H2).
    + simpl. destruct (Qle_bool i stop) eqn:E; [|done].
      apply Qle_bool_iff in E. pose proof (spread_next i stop E).
      f_equal. apply IH; lia.
Qed.

(** More fuel than [spread_fuel] changes nothing: the loop has ended by
    its own condition. *)
Lemma spread_loop_enough (fuel : nat) (start stop : Q) :
  (spread_fuel start stop <= fuel)%nat ->
  spread_loop fuel start stop
  = spread_loop (spread_fuel start stop) start stop.
Proof.
  intros H. apply spread_loop_fuel; unfold spread_fuel in *; lia.
Qed.





(* ===================================================================== *)
(** ** Conditions *)
(* ===================================================================== *)

(** X22.  [range] lets an event pass exactly when one of its light IDs
    lies between the two ends, ends included, whether the event carries a
    bare number or a sequence; a single number stands for both ends.  So
    an event without light IDs, or with the empty sequence, never passes,
    and no event passes a range whose upper end is below its lower end. *)
Theorem X22_range (min max : Q) (x : AbstractEvent) :
  (LightRemapper.range (LightRemapper.Between min max) x = true
   <-> exists current id,
         lightID x = Some current
         /\ id ∈ LightRemapper.promote current
         /\ min <= id /\ id <= max)
  /\ LightRemapper.range (LightRemapper.Single min) x
     = LightRemapper.range (LightRemapper.Between min min) x
  /\ (max < min ->
      LightRemapper.range (LightRemapper.Between min max) x = false).
Proof.
  assert (Hiff : LightRemapper.range (LightRemapper.Between min max) x = true
    <-> exists current id,
          lightID x = Some current
          /\ id ∈ LightRemapper.promote current
          /\ min <= id /\ id <= max).
  { unfold LightRemapper.range, isInID.
    destruct (lightID x) as [[id|ids]|]; cbn [LightRemapper.promote].
    - destruct (Qle_bool min id && Qle_bool id max) eqn:E.
      + apply andb_true_iff in E as [E1 E2].
        apply Qle_bool_iff in E1, E2.
        split; [|done]. intros _. exists (Scalar id), id.
        repeat split; try done. by apply list_elem_of_singleton.
      + split; [done|]. intros (current & id' & [= <-] & Hin & H1 & H2).
        apply list_elem_of_singleton in Hin as ->.
        apply Qle_bool_iff in H1, H2. rewrite H1, H2 in E. discriminate E.
    - destruct (existsb _ ids) eqn:E.
      + apply existsb_exists in E as (id & Hin & E).
        apply andb_true_iff in E as [E1 E2].
        apply Qle_bool_iff in E1, E2.
        split; [|done]. intros _. exists (Sequence ids), id.
        repeat split; try done. by apply list_elem_of_In.
      + split; [done|]. intros (current & id & [= <-] & Hin & H1 & H2).
        assert (existsb (fun z => Qle_bool min z && Qle_bool z max) ids
                = true); [|congruence].
        apply existsb_exists. exists id. split; [by apply list_elem_of_In|].
        apply Qle_bool_iff in H1, H2. by rewrite H1, H2.
    - split; [done|]. by intros (current & id & [=] & _). }
  split; [exact Hiff|]. split; [reflexivity|].
  intros Hinv. apply not_true_is_false. intros E.
  apply Hiff in E as (current & id & _ & _ & H1 & H2). lra.
Qed.

Lemma X22_range_witness :
  LightRemapper.range (LightRemapper.Between 4 1)
    (mkEvent 0 None (Some (Sequence [2; 3])))
  = false.
Proof.
  apply (X22_range 4 1 (mkEvent 0 None (Some (Sequence [2; 3])))).
  reflexivity.
Defined.

(** X23.  [IDs] and [range] do not agree on what a light ID of 0 is: an
    event carrying the bare number 0 never passes [IDs], whatever set is
    asked for (and whatever [arrHas] does), although it passes every range
    that contains 0.  Without a set, [IDs] is the presence test itself. *)
Theorem X23_IDs_presence (arrHas : list Q -> Q -> bool)
    (lightIDs : option (list Q)) (x : AbstractEvent) :
  (LightRemapper.IDs arrHas lightIDs x = true -> truthy (lightID x) = true)
  /\ LightRemapper.IDs arrHas None x = truthy (lightID x)
  /\ (forall zero min max,
        lightID x = Some (Scalar zero) -> zero == 0 ->
        min <= 0 -> 0 <= max ->
        LightRemapper.IDs arrHas lightIDs x = false
        /\ LightRemapper.range (LightRemapper.Between min max) x = true).
Proof.
  unfold LightRemapper.IDs. split; [|split].
  - destruct (lightID x) as [current|]; [|done].
    by destruct (truthy (Some current)).
  - destruct (lightID x) as [current|]; [|done].
    by destruct (truthy (Some current)).
  - intros zero min max Hl Hz Hmin Hmax. rewrite Hl. cbn [truthy].
    rewrite (proj2 (Qeq_bool_iff _ _) Hz). cbn [negb]. split; [done|].
    unfold LightRemapper.range, isInID. rewrite Hl.
    assert (H1 : min <= zero) by lra. assert (H2 : zero <= max) by lra.
    apply Qle_bool_iff in H1, H2. by rewrite H1, H2.
Qed.

Lemma X23_IDs_presence_witness :
  LightRemapper.IDs (fun _ _ => true) (Some [0])
    (mkEvent 0 None (Some (Scalar 0))) = false
  /\ LightRemapper.range (LightRemapper.Between 0 5)
       (mkEvent 0 None (Some (Scalar 0))) = true.
Proof.
  refine (proj2 (proj2 (X23_IDs_presence (fun _ _ => true) (Some [0])
                          (mkEvent 0 None (Some (Scalar 0)))))
            0 0 5 eq_refl _ _ _).
  - reflexivity.
  - discriminate.
  - discriminate.
Defined.

(* ===================================================================== *)
(** ** Events that share an array *)
(* ===================================================================== *)

Lemma read_alloc_new (ids : list Q) (s : InPlace.Store) :
  InPlace.read (s ++ [ids]) (length s) = ids.
Proof.
  unfold InPlace.read. by rewrite lookup_app_r, Nat.sub_diag by lia.
Qed.

Lemma read_alloc_old (ids : list Q) (s : InPlace.Store) (a : nat) :
  (a < length s)%nat -> InPlace.read (s ++ [ids]) a = InPlace.read s a.
Proof. intros Ha. unfold InPlace.read. by rewrite lookup_app_l. Qed.

Lemma read_overwrite (a : nat) (ids : list Q) (s : InPlace.Store) :
  (a < length s)%nat -> InPlace.read (InPlace.overwrite a ids s) a = ids.
Proof.
  intros Ha. unfold InPlace.read, InPlace.overwrite.
  by rewrite list_lookup_insert_eq.
Qed.

Lemma view_ids_alloc (ids : list Q) (s : InPlace.Store) (l : InPlace.Held) :
  InPlace.allocated s l ->
  InPlace.view_ids (s ++ [ids]) l = InPlace.view_ids s l.
Proof.
  destruct l as [id|a]; [done|]. simpl. intros Ha.
  by rewrite read_alloc_old.
Qed.

Lemma truthy_view (s : InPlace.Store) (l : option InPlace.Held) :
  truthy (InPlace.view_ids s <$> l) = InPlace.truthy l.
Proof. by destruct l as [[id|a]|]. Qed.

(** The helper with a callback that rewrites the array in place. *)
Lemma complexify_in_place (f : list Q -> list Q) (current : InPlace.Held)
    (s : InPlace.Store) :
  InPlace.allocated s current ->
  let result :=
    InPlace.complexifyLightIDs current
      (fun ids s => (ids, InPlace.overwrite ids (f (InPlace.read s ids)) s))
      s in
  InPlace.view_ids (snd result) (fst result)
  = LightRemapper.complexifyLightIDs (InPlace.view_ids s current) f.
Proof.
  intros Ha. unfold InPlace.complexifyLightIDs,
    LightRemapper.complexifyLightIDs, LightRemapper.demote.
  destruct current as [id|a]; cbn [InPlace.alloc InPlace.view_ids
    LightRemapper.promote].
  - rewrite read_alloc_new.
    rewrite read_overwrite by (rewrite length_app; simpl; lia).
    destruct (f [id]) as [|y [|z l]] eqn:E; cbn [fst snd InPlace.view_ids];
      try done;
      rewrite read_overwrite by (rewrite length_app; simpl; lia); done.
  - simpl in Ha. rewrite read_overwrite by done.
    destruct (f (InPlace.read s a)) as [|y [|z l]] eqn:E;
      cbn [fst snd InPlace.view_ids]; try done;
      rewrite read_overwrite by done; done.
Qed.

(** The helper with a callback that returns a new array. *)
Lemma complexify_fresh (f : list Q -> list Q) (current : InPlace.Held)
    (s : InPlace.Store) :
  InPlace.allocated s current ->
  let result :=
    InPlace.complexifyLightIDs current
      (fun ids s => InPlace.alloc (f (InPlace.read s ids)) s) s in
  InPlace.view_ids (snd result) (fst result)
  = LightRemapper.complexifyLightIDs (InPlace.view_ids s current) f.
Proof.
  intros Ha. unfold InPlace.complexifyLightIDs,
    LightRemapper.complexifyLightIDs, LightRemapper.demote.
  destruct current as [id|a]; cbn [InPlace.alloc InPlace.view_ids
    LightRemapper.promote].
  - rewrite read_alloc_new. rewrite read_alloc_new.
    destruct (f [id]) as [|y [|z l]] eqn:E; cbn [fst snd InPlace.view_ids];
      try done; by rewrite read_alloc_new.
  - simpl in Ha. rewrite read_alloc_new.
    destruct (f (InPlace.read s a)) as [|y [|z l]] eqn:E;
      cbn [fst snd InPlace.view_ids]; try done; by rewrite read_alloc_new.
Qed.

Lemma read_overwrite_other (a b : nat) (ids : list Q) (s : InPlace.Store) :
  a <> b -> InPlace.read (InPlace.overwrite b ids s) a = InPlace.read s a.
Proof.
  intros Hab. unfold InPlace.read, InPlace.overwrite.
  by rewrite list_lookup_insert_ne.
Qed.

(** An event reads the same through a store that agrees on the addresses
    allocated so far. *)
Lemma view_agree (s s' : InPlace.Store) (x : InPlace.StoredEvent) :
  (forall l, InPlace.stored_lightID x = Some l -> InPlace.allocated s l) ->
  (forall a, (a < length s)%nat -> InPlace.read s' a = InPlace.read s a) ->
  InPlace.view s' x = InPlace.view s x.
Proof.
  intros Hx Hs. unfold InPlace.view.
  destruct (InPlace.stored_lightID x) as [[id|a]|] eqn:E; try done.
  cbn [fmap option_fmap option_map InPlace.view_ids].
  by rewrite (Hs a (Hx _ eq_refl)).
Qed.

Lemma view_set_lightID (s : InPlace.Store) (l : InPlace.Held)
    (x : InPlace.StoredEvent) (s0 : InPlace.Store) :
  InPlace.view s (InPlace.set_lightID l x)
  = set_lightID (InPlace.view_ids s l) (InPlace.view s0 x).
Proof. done. Qed.

Lemma allocated_alloc (ids : list Q) (s : InPlace.Store) (l : InPlace.Held) :
  InPlace.allocated s l -> InPlace.allocated (s ++ [ids]) l.
Proof. destruct l; [done|]. simpl. rewrite length_app. simpl. lia. Qed.

(** The helper with the callback of [appendIDs]. *)
Lemma complexify_concat (ids1 : nat) (current : InPlace.Held)
    (s : InPlace.Store) :
  InPlace.allocated s current ->
  (ids1 < length s)%nat ->
  let result :=
    InPlace.complexifyLightIDs current
      (fun ids2 s =>
         InPlace.alloc (InPlace.read s ids2 ++ InPlace.read s ids1) s) s in
  InPlace.view_ids (snd result) (fst result)
  = LightRemapper.complexifyLightIDs (InPlace.view_ids s current)
      (fun ids2 => ids2 ++ InPlace.read s ids1).
Proof.
  intros Ha H1. unfold InPlace.complexifyLightIDs,
    LightRemapper.complexifyLightIDs, LightRemapper.demote.
  destruct current as [id|a]; cbn [InPlace.alloc InPlace.view_ids
    LightRemapper.promote].
  - rewrite !read_alloc_new. rewrite (read_alloc_old _ _ ids1) by done.
    destruct ([id] ++ InPlace.read s ids1) as [|y [|z l]] eqn:E;
      cbn [fst snd InPlace.view_ids]; try done; by rewrite read_alloc_new.
  - simpl in Ha. rewrite read_alloc_new.
    destruct (InPlace.read s a ++ InPlace.read s ids1) as [|y [|z l]] eqn:E;
      cbn [fst snd InPlace.view_ids]; try done; by rewrite read_alloc_new.
Qed.

Lemma appendIDs_written (appended current : InPlace.Held)
    (x : InPlace.StoredEvent) (s : InPlace.Store) :
  InPlace.allocated s current ->
  InPlace.allocated s appended ->
  let result :=
    let '(ids1, s) :=
      match appended with
      | InPlace.Number id => InPlace.alloc [id] s
      | InPlace.Array ids => (ids, s)
      end in
    let '(l, s) :=
      InPlace.complexifyLightIDs current
        (fun ids2 s =>
           InPlace.alloc (InPlace.read s ids2 ++ InPlace.read s ids1) s) s in
    (InPlace.set_lightID l x, s) in
  InPlace.view (snd result) (fst result)
  = set_lightID
      (LightRemapper.complexifyLightIDs (InPlace.view_ids s current)
         (fun ids2 =>
            ids2 ++ LightRemapper.promote (InPlace.view_ids s appended)))
      (InPlace.view s x).
Proof.
  intros Hc Ha. cbv zeta.
  destruct appended as [id|a]; cbn [InPlace.alloc InPlace.view_ids
    LightRemapper.promote].
  - pose proof (complexify_concat (length s) current (s ++ [[id]])
                  (allocated_alloc _ _ _ Hc)) as H.
    rewrite length_app in H. specialize (H ltac:(simpl; lia)).
    cbv zeta in H. rewrite read_alloc_new, view_ids_alloc in H by done.
    destruct (InPlace.complexifyLightIDs current _ (s ++ [[id]])) as [l s'].
    cbn [fst snd] in *. by rewrite (view_set_lightID s' l x s), H.
  - pose proof (complexify_concat a current s Hc Ha) as H. cbv zeta in H.
    destruct (InPlace.complexifyLightIDs current _ s) as [l s'].
    cbn [fst snd] in *. by rewrite (view_set_lightID s' l x s), H.
Qed.

(** X28.  Event by event the two descriptions agree.  Run on an event
    whose light IDs are a number or an allocated array, each process of
    [InPlace] leaves the event, read through the store, as the process of
    the same name in [LightRemapper] leaves the event's values: so for
    [normalizeLinear], [normalizeWithChanges], [addToEnd], [remapEnd],
    [appendIDs] and [initIDs].  What [LightRemapper] says about one event is
    therefore true of the source's event right after its own processes have
    run (later events can still rewrite an array it shares, X29). *)
Theorem X28_in_place_agrees_on_one_event (x : InPlace.StoredEvent)
    (s : InPlace.Store) :
  (forall l, InPlace.stored_lightID x = Some l -> InPlace.allocated s l) ->
  (forall step start,
     let result := InPlace.normalizeLinear step start x s in
     InPlace.view (snd result) (fst result)
     = LightRemapper.normalizeLinear step start (InPlace.view s x))
  /\ (forall map,
        let result := InPlace.normalizeWithChanges map x s in
        InPlace.view (snd result) (fst result)
        = LightRemapper.normalizeWithChanges map (InPlace.view s x))
  /\ (forall offset step,
        let result := InPlace.addToEnd offset step x s in
        InPlace.view (snd result) (fst result)
        = LightRemapper.addToEnd offset step (InPlace.view s x))
  /\ (forall map offset,
        let result := InPlace.remapEnd map offset x s in
        InPlace.view (snd result) (fst result)
        = LightRemapper.remapEnd map offset (InPlace.view s x))
  /\ (forall appended initialize,
        InPlace.allocated s appended ->
        let result := InPlace.appendIDs appended initialize x s in
        InPlace.view (snd result) (fst result)
        = LightRemapper.appendIDs (InPlace.view_ids s appended) initialize
            (InPlace.view s x))
  /\ (forall initial spread,
        InPlace.allocated s initial ->
        let result := InPlace.initIDs initial spread x s in
        InPlace.view (snd result) (fst result)
        = LightRemapper.initIDs (InPlace.view_ids s initial) spread
            (InPlace.view s x)).
Proof.
  intros Hx.
  assert (Hin : forall f,
    let result :=
      match InPlace.stored_lightID x with
      | Some current =>
          if InPlace.truthy (Some current)
          then let '(l, s) :=
                 InPlace.complexifyLightIDs current
                   (fun ids s =>
                      (ids, InPlace.overwrite ids (f (InPlace.read s ids)) s))
                   s in
               (InPlace.set_lightID l x, s)
          else (x, s)
      | None => (x, s)
      end in
    InPlace.view (snd result) (fst result)
    = match lightID (InPlace.view s x) with
      | Some current =>
          if truthy (Some current)
          then set_lightID (LightRemapper.complexifyLightIDs current f)
                 (InPlace.view s x)
          else InPlace.view s x
      | None => InPlace.view s x
      end).
  { intros f. cbn [InPlace.view lightID].
    destruct (InPlace.stored_lightID x) as [current|] eqn:E; [|done].
    cbn [fmap option_fmap option_map].
    rewrite <- (truthy_view s (Some current)). cbn [fmap option_fmap option_map].
    destruct (truthy (Some (InPlace.view_ids s current))); [|done].
    pose proof (complexify_in_place f current s (Hx _ eq_refl)) as H.
    cbv zeta in H.
    destruct (InPlace.complexifyLightIDs current _ s) as [l s'].
    cbn [fst snd] in *. cbv zeta.
    rewrite (view_set_lightID s' l x s), H. unfold InPlace.view.
    by rewrite E. }
  assert (Hfresh : forall f,
    let result :=
      match InPlace.stored_lightID x with
      | Some current =>
          if InPlace.truthy (Some current)
          then let '(l, s) :=
                 InPlace.complexifyLightIDs current
                   (fun ids s => InPlace.alloc (f (InPlace.read s ids)) s)
                   s in
               (InPlace.set_lightID l x, s)
          else (x, s)
      | None => (x, s)
      end in
    InPlace.view (snd result) (fst result)
    = match lightID (InPlace.view s x) with
      | Some current =>
          if truthy (Some current)
          then set_lightID (LightRemapper.complexifyLightIDs current f)
                 (InPlace.view s x)
          else InPlace.view s x
      | None => InPlace.view s x
      end).
  { intros f. cbn [InPlace.view lightID].
    destruct (InPlace.stored_lightID x) as [current|] eqn:E; [|done].
    cbn [fmap option_fmap option_map].
    rewrite <- (truthy_view s (Some current)). cbn [fmap option_fmap option_map].
    destruct (truthy (Some (InPlace.view_ids s current))); [|done].
    pose proof (complexify_fresh f current s (Hx _ eq_refl)) as H.
    cbv zeta in H.
    destruct (InPlace.complexifyLightIDs current _ s) as [l s'].
    cbn [fst snd] in *. cbv zeta.
    rewrite (view_set_lightID s' l x s), H. unfold InPlace.view.
    by rewrite E. }
  split; [intros step start; apply (Hin (solveLightMap [(start, step)]))|].
  split; [intros map; apply (Hin (solveLightMap map))|].
  split; [intros offset step; apply Hfresh|].
  split; [intros map offset; apply (Hin (applyLightMap offset map))|].
  split.
  - intros appended initialize Happ. cbv zeta.
    unfold InPlace.appendIDs, LightRemapper.appendIDs.
    cbn [InPlace.view lightID]. rewrite truthy_view.
    destruct (InPlace.truthy (InPlace.stored_lightID x)) eqn:T; cbn [negb].
    + destruct (InPlace.stored_lightID x) as [current|] eqn:E; [|done].
      cbn [fmap option_fmap option_map].
      apply (appendIDs_written appended current x s (Hx _ eq_refl) Happ).
    + destruct initialize; [|reflexivity]. cbn [InPlace.alloc].
      pose proof (appendIDs_written appended (InPlace.Array (length s)) x
                    (s ++ [[]])) as H.
      cbn [InPlace.allocated] in H. rewrite length_app in H.
      specialize (H ltac:(simpl; lia) (allocated_alloc _ _ _ Happ)).
      cbv zeta in H. rewrite H.
      rewrite (view_ids_alloc [] s appended Happ). cbn [InPlace.view_ids].
      rewrite read_alloc_new. reflexivity.
  - intros initial spread Hinit. cbv zeta.
    unfold InPlace.initIDs, LightRemapper.initIDs.
    cbn [InPlace.view lightID InPlace.alloc]. rewrite truthy_view.
    assert (Hold : InPlace.view (s ++ [[]]) x = InPlace.view s x).
    { apply view_agree; [done|]. intros a Ha. by apply read_alloc_old. }
    destruct initial as [id|a]; cbn [InPlace.view_ids].
    { by destruct (negb _). }
    simpl in Hinit. rewrite read_alloc_old by done.
    destruct (InPlace.read s a) as [|start [|stop [|z l]]] eqn:E;
      try (destruct (negb _); cbn [fst snd]; [|done];
           rewrite (view_set_lightID _ _ x s); cbn [InPlace.view_ids];
           by rewrite read_alloc_old, E).
    destruct spread;
      [|destruct (negb _); cbn [fst snd]; [|done];
        rewrite (view_set_lightID _ _ x s); cbn [InPlace.view_ids];
        by rewrite read_alloc_old, E].
    destruct (negb _); cbn [fst snd].
    + rewrite (view_set_lightID _ _ x s). cbn [InPlace.view_ids].
      by rewrite read_overwrite by (rewrite length_app; simpl; lia).
    + apply view_agree; [done|]. intros b Hb.
      rewrite read_overwrite_other by lia. by apply read_alloc_old.
Qed.

Lemma X28_in_place_agrees_on_one_event_witness :
  let x := InPlace.mkStored 1 None (Some (InPlace.Array 0)) in
  let s := [[1; 3; 5]] in
  let result := InPlace.normalizeLinear 2 1 x s in
  InPlace.view (snd result) (fst result)
  = LightRemapper.normalizeLinear 2 1 (InPlace.view s x).
Proof.
  refine (proj1 (X28_in_place_agrees_on_one_event
                   (InPlace.mkStored 1 None (Some (InPlace.Array 0)))
                   [[1; 3; 5]] _) 2 1).
  intros l H. injection H as <-. simpl. lia.
Defined.

(** The pipeline [initIDs(ids).remapEnd(map, offset)], run on one event
    without light IDs, when [ids] is the array at [a]. *)
Lemma initIDs_remapEnd_one_event (map : list change) (offset : Q) (a : nat)
    (ids : list Q) (x : InPlace.StoredEvent) (s : InPlace.Store) :
  InPlace.truthy (InPlace.stored_lightID x) = false ->
  s !! a = Some ids ->
  length ids <> 1%nat ->
  InPlace.run_processes
    [InPlace.initIDs (InPlace.Array a) false; InPlace.remapEnd map offset]
    x s
  = (InPlace.set_lightID (InPlace.Array a) x,
     <[a := applyLightMap offset map ids]> (s ++ [[]])).
Proof.
  intros Hx Ha Hids.
  assert (Hlt : (a < length s)%nat) by (by eapply lookup_lt_Some).
  assert (Hread : InPlace.read (s ++ [[]]) a = ids).
  { rewrite read_alloc_old by done. unfold InPlace.read. by rewrite Ha. }
  assert (Hinit : InPlace.initIDs (InPlace.Array a) false x s
                  = (InPlace.set_lightID (InPlace.Array a) x, s ++ [[]])).
  { unfold InPlace.initIDs. cbn [InPlace.alloc]. rewrite Hx.
    by destruct (InPlace.read (s ++ [[]]) a) as [|? [|? [|? ?]]]. }
  unfold InPlace.run_processes. cbn [fold_left fst snd]. rewrite Hinit.
  cbn [fst snd]. unfold InPlace.remapEnd.
  cbn [InPlace.set_lightID InPlace.stored_lightID InPlace.truthy].
  unfold InPlace.complexifyLightIDs, InPlace.applyLightMap.
  rewrite Hread.
  rewrite read_overwrite by (rewrite length_app; simpl; lia).
  assert (Hlen : length ((fun id => apply id map + offset) <$> ids) <> 1%nat)
    by (by rewrite length_fmap).
  unfold applyLightMap.
  by destruct ((fun id => apply id map + offset) <$> ids) as [|? [|? ?]].
Qed.

(** X29.  An array given to [initIDs] is shared, and [remapEnd] rewrites it
    in place: after [initIDs(ids).remapEnd(map, offset)] has run over events
    that had no light IDs, every one of them holds the one array [ids] (not
    a copy), and that array has had the table applied once for every event
    processed, not once.  ([ids] is not of length 1: a one-element array is
    handed back as a bare number.) *)
Theorem X29_shared_array_is_remapped_per_event (map : list change)
    (offset : Q) (a : nat) (ids : list Q)
    (events : list InPlace.StoredEvent) (s : InPlace.Store) :
  Forall (fun x => InPlace.truthy (InPlace.stored_lightID x) = false)
    events ->
  s !! a = Some ids ->
  length ids <> 1%nat ->
  let r :=
    InPlace.addProcess (InPlace.remapEnd map offset)
      (InPlace.addProcess (InPlace.initIDs (InPlace.Array a) false)
         InPlace.empty) in
  let result := InPlace.processEvents r events s in
  length (fst result) = length events
  /\ Forall (fun x => InPlace.stored_lightID x = Some (InPlace.Array a))
       (fst result)
  /\ InPlace.read (snd result) a
     = Nat.iter (length events) (applyLightMap offset map) ids.
Proof.
  intros Hev Ha Hids. cbv zeta.
  unfold InPlace.addProcess, InPlace.empty.
  cbn [InPlace.conditions InPlace.processes app].
  revert s ids Ha Hids.
  induction Hev as [|x events Hx Hev IH]; intros s ids Ha Hids.
  - cbn [InPlace.processEvents fst snd length Nat.iter nat_rect].
    split; [done|]. split; [done|]. unfold InPlace.read. by rewrite Ha.
  - cbn [InPlace.processEvents InPlace.conditions InPlace.processes forallb
         negb].
    rewrite (initIDs_remapEnd_one_event map offset a ids x s Hx Ha Hids).
    assert (Hlt : (a < length s)%nat) by (by eapply lookup_lt_Some).
    specialize (IH (<[a := applyLightMap offset map ids]> (s ++ [[]]))
                  (applyLightMap offset map ids)).
    rewrite list_lookup_insert_eq in IH by (rewrite length_app; simpl; lia).
    specialize (IH eq_refl).
    assert (Hids' : length (applyLightMap offset map ids) <> 1%nat)
      by (unfold applyLightMap; by rewrite length_fmap).
    specialize (IH Hids').
    destruct (InPlace.processEvents _ events _) as [events' s'].
    cbn [fst snd] in *. destruct IH as (Hn & Hall & Hr).
    split; [simpl; by rewrite Hn|].
    split; [by constructor|].
    rewrite Hr. cbn [length]. by rewrite Nat.iter_succ_r.
Qed.

Lemma X29_shared_array_is_remapped_per_event_witness :
  let r :=
    InPlace.addProcess (InPlace.remapEnd [(1, 2); (3, 1)] 10)
      (InPlace.addProcess (InPlace.initIDs (InPlace.Array 0) false)
         InPlace.empty) in
  let events := [InPlace.mkStored 0 None None; InPlace.mkStored 1 None None] in
  let result := InPlace.processEvents r events [[2; 4]] in
  length (fst result) = length events
  /\ Forall (fun x => InPlace.stored_lightID x = Some (InPlace.Array 0))
       (fst result)
  /\ InPlace.read (snd result) 0
     = Nat.iter (length events) (applyLightMap 10 [(1, 2); (3, 1)]) [2; 4].
Proof.
  apply (X29_shared_array_is_remapped_per_event [(1, 2); (3, 1)] 10 0 [2; 4]
           [InPlace.mkStored 0 None None; InPlace.mkStored 1 None None]
           [[2; 4]]).
  - repeat constructor.
  - reflexivity.
  - simpl. lia.
Defined.

(** The scenario of X29 evaluated: one array [[2, 4]], two events.  Both
    end with the array, which reads [[25, 28]]; a single application of the
    table gives [[13, 16]]. *)
Lemma initIDs_remapEnd_two_events :
  let r :=
    InPlace.addProcess (InPlace.remapEnd [(1, 2); (3, 1)] 10)
      (InPlace.addProcess (InPlace.initIDs (InPlace.Array 0) false)
         InPlace.empty) in
  let events := [InPlace.mkStored 0 None None; InPlace.mkStored 1 None None] in
  let result := InPlace.processEvents r events [[2; 4]] in
  InPlace.view (snd result) <$> fst result
  = [mkEvent 0 None (Some (Sequence [25; 28]));
     mkEvent 1 None (Some (Sequence [25; 28]))]
  /\ applyLightMap 10 [(1, 2); (3, 1)] [2; 4] = [13; 16].
Proof. vm_compute. split; reflexivity. Qed.



